(** * JobQuest Navigator (JNv3) backend: request-scoped DataLoaders, the Redis
    cache service and the cache-timing helper.

    A shallow embedding of
      - app/core/dataloaders.py      (module [dataloaders])
      - app/services/cache_service.py (module [cache_service])
      - app/core/monitoring.py       (module [monitoring])
    with the pieces of the Python runtime they rest on (module [Py]: str of a
    UUID, json.dumps, sorted, exceptions; module [hashlib]: MD5; module
    [redis]: the key/value store the cache client talks to).

    Python dicts keyed by strings are [gmap string _]; a coroutine is cut at
    its suspension points into the steps the event loop runs atomically. *)

Set Warnings "-register-all".
From stdpp Require Import gmap strings list sorting pretty.
From Stdlib Require Import ZArith NArith Ascii String Floats Uint63.

Open Scope string_scope.

(* ===================================================================== *)
(** ** The Python runtime the three modules use *)
(* ===================================================================== *)

Module Py.

(** What a Redis command raises: the classes of [redis.exceptions], all
    under [RedisError], itself under [Exception]. *)
Inductive redis_error :=
  | ConnectionError
  | TimeoutError
  | ResponseError (msg : string)
  | DataError (msg : string).

(** Exceptions that the modelled code can meet. [CancelledError] derives
    from [BaseException] only; the others derive from [Exception]. *)
Inductive exn :=
  | AttributeError (obj attr : string)
  | TypeError (msg : string)
  | ValueError (msg : string)
  | RedisError (e : redis_error)
  | CancelledError.

(** [isinstance(e, Exception)] *)
Definition is_Exception (e : exn) : bool :=
  match e with
  | CancelledError => false
  | _ => true
  end.

(** The outcome of evaluating an expression or a call: a value, or a raised
    exception. *)
Inductive result (A : Type) :=
  | Ok (a : A)
  | Raise (e : exn).
Arguments Ok {A} a.
Arguments Raise {A} e.

Definition bind {A B} (r : result A) (k : A -> result B) : result B :=
  match r with
  | Ok a => k a
  | Raise e => Raise e
  end.

Notation "'let*' x ':=' r 'in' k" := (bind r (fun x => k))
  (at level 10, x name, r at level 100, k at level 200).

(** *** uuid.UUID

    A UUID object holds [int], with [0 <= int < 1 << 128] enforced by the
    constructor; [str] prints it as 32 lower-case hex digits in groups
    8-4-4-4-12. *)
Record UUID := mkUUID {
  uuid_int : N;
  uuid_range : (uuid_int <? 2 ^ 128)%N = true
}.

Definition hex_digit (d : N) : ascii :=
  if (d <? 10)%N then ascii_of_N (48 + d) else ascii_of_N (87 + d).

(** ['%0<len>x' % n] for [n < 16 ^ len]. *)
Fixpoint hex_pad (len : nat) (n : N) : string :=
  match len with
  | O => ""
  | S l => hex_pad l (n / 16) ++ String (hex_digit (n mod 16)) ""
  end.

Definition py_slice (s : string) (lo hi : nat) : string :=
  substring lo (hi - lo) s.

(** [UUID.__str__]. *)
Definition uuid_str (u : UUID) : string :=
  let hex := hex_pad 32 (uuid_int u) in
  py_slice hex 0 8 ++ "-" ++ py_slice hex 8 12 ++ "-" ++ py_slice hex 12 16
    ++ "-" ++ py_slice hex 16 20 ++ "-" ++ py_slice hex 20 32.

(** [sep.join(parts)]. *)
Definition join (sep : string) (parts : list string) : string :=
  String.concat sep parts.

(** Two UUIDs with the same [int] are the same UUID. *)
Lemma uuid_eq (u v : UUID) : uuid_int u = uuid_int v -> u = v.
Proof.
  destruct u as [n Hn], v as [m Hm]; simpl; intros ->.
  f_equal. apply (proof_irrel Hn Hm).
Qed.

#[export] Instance uuid_eq_dec : EqDecision UUID.
Proof.
  intros u v. destruct (decide (uuid_int u = uuid_int v)) as [H|H].
  - left. apply uuid_eq, H.
  - right. intros ->. apply H. reflexivity.
Defined.

Definition uuid_of_int (n : N) : option UUID :=
  match decide ((n <? 2 ^ 128)%N = true) with
  | left H => Some (mkUUID n H)
  | right _ => None
  end.

#[export] Program Instance uuid_countable : Countable UUID :=
  inj_countable uuid_int uuid_of_int _.
Next Obligation.
  intros u. unfold uuid_of_int.
  destruct (decide _) as [H|H].
  - f_equal. apply uuid_eq. reflexivity.
  - destruct H. apply uuid_range.
Qed.

(** *** Values

    The values that reach the cache service: [None], booleans, integers,
    strings (over the code points below 256), lists (tuples print the same
    way in JSON) and dicts with string keys, in insertion order. *)
Inductive pyval :=
  | PyNone
  | PyBool (b : bool)
  | PyInt (z : Z)
  | PyStr (s : string)
  | PyList (items : list pyval)
  | PyDict (items : list (string * pyval)).

(** [str(n)] for an integer. *)
Definition str_int (z : Z) : string := pretty z.

Definition quote : ascii := ascii_of_N 34.
Definition backslash : ascii := ascii_of_N 92.

(** Keyword arguments are a dict: the items in insertion order, no name
    twice. *)
Definition kwargs := list (string * pyval).

Definition item_le (x y : string * pyval) : Prop :=
  String.leb (fst x) (fst y) = true.

#[export] Instance item_le_dec (x y : string * pyval) : Decision (item_le x y).
Proof. unfold item_le. apply _. Defined.

(** [sorted(kwargs.items())]: the names differ pairwise, so the order of two
    items is the order of their names and the values are never compared. *)
Definition sorted_items (kw : kwargs) : list (string * pyval) :=
  merge_sort item_le kw.

(** [s.encode()], UTF-8. *)
Definition encode_char (c : ascii) : list N :=
  let n := N_of_ascii c in
  if (n <? 128)%N then [n]
  else [N.lor 192 (N.shiftr n 6); N.lor 128 (N.land n 63)].

Definition encode (s : string) : list N :=
  flat_map encode_char (list_ascii_of_string s).

End Py.

Import Py.

(* ===================================================================== *)
(** ** hashlib.md5 (RFC 1321), on bytes as numbers below 256 *)
(* ===================================================================== *)

Module hashlib.

Open Scope N_scope.

Definition mask32 : N := 0xFFFFFFFF.
Definition add32 (a b : N) : N := N.land (a + b) mask32.
Definition not32 (a : N) : N := N.lxor (N.land a mask32) mask32.
Definition rotl32 (x c : N) : N :=
  N.land (N.lor (N.shiftl x c) (N.shiftr x (32 - c))) mask32.

Definition shifts : list N :=
  [7; 12; 17; 22; 7; 12; 17; 22; 7; 12; 17; 22; 7; 12; 17; 22;
   5; 9; 14; 20; 5; 9; 14; 20; 5; 9; 14; 20; 5; 9; 14; 20;
   4; 11; 16; 23; 4; 11; 16; 23; 4; 11; 16; 23; 4; 11; 16; 23;
   6; 10; 15; 21; 6; 10; 15; 21; 6; 10; 15; 21; 6; 10; 15; 21].

(** [floor(2^32 * abs(sin(i + 1)))] for [i] from 0 to 63. *)
Definition sines : list N :=
  [0xd76aa478; 0xe8c7b756; 0x242070db; 0xc1bdceee; 0xf57c0faf; 0x4787c62a;
   0xa8304613; 0xfd469501; 0x698098d8; 0x8b44f7af; 0xffff5bb1; 0x895cd7be;
   0x6b901122; 0xfd987193; 0xa679438e; 0x49b40821; 0xf61e2562; 0xc040b340;
   0x265e5a51; 0xe9b6c7aa; 0xd62f105d; 0x02441453; 0xd8a1e681; 0xe7d3fbc8;
   0x21e1cde6; 0xc33707d6; 0xf4d50d87; 0x455a14ed; 0xa9e3e905; 0xfcefa3f8;
   0x676f02d9; 0x8d2a4c8a; 0xfffa3942; 0x8771f681; 0x6d9d6122; 0xfde5380c;
   0xa4beea44; 0x4bdecfa9; 0xf6bb4b60; 0xbebfbc70; 0x289b7ec6; 0xeaa127fa;
   0xd4ef3085; 0x04881d05; 0xd9d4d039; 0xe6db99e5; 0x1fa27cf8; 0xc4ac5665;
   0xf4292244; 0x432aff97; 0xab9423a7; 0xfc93a039; 0x655b59c3; 0x8f0ccc92;
   0xffeff47d; 0x85845dd1; 0x6fa87e4f; 0xfe2ce6e0; 0xa3014314; 0x4e0811a1;
   0xf7537e82; 0xbd3af235; 0x2ad7d2bb; 0xeb86d391].

Definition nth_N (l : list N) (i : N) : N := nth (N.to_nat i) l 0.

Record state := mkState { sa : N; sb : N; sc : N; sd : N }.

Definition init_state : state :=
  {| sa := 0x67452301; sb := 0xefcdab89; sc := 0x98badcfe; sd := 0x10325476 |}.

(** One of the 64 operations on the words [m] of a block. *)
Definition operation (m : list N) (st : state) (i : N) : state :=
  let '(mkState a b c d) := st in
  let '(f, g) :=
    if i <? 16 then (N.lor (N.land b c) (N.land (not32 b) d), i)
    else if i <? 32 then
      (N.lor (N.land d b) (N.land (not32 d) c), (5 * i + 1) mod 16)
    else if i <? 48 then (N.lxor b (N.lxor c d), (3 * i + 5) mod 16)
    else (N.lxor c (N.lor b (not32 d)), (7 * i) mod 16) in
  let f' := add32 (add32 (add32 f a) (nth_N sines i)) (nth_N m g) in
  {| sa := d; sd := c; sc := b; sb := add32 b (rotl32 f' (nth_N shifts i)) |}.

Definition indices : list N := map N.of_nat (seq 0 64).

Definition le_word (bs : list N) : N :=
  foldr (fun b acc => b + 256 * acc) 0 bs.

Fixpoint words (n : nat) (block : list N) : list N :=
  match n with
  | O => []
  | S n' => le_word (take 4 block) :: words n' (drop 4 block)
  end.

Definition process_block (st : state) (block : list N) : state :=
  let m := words 16 block in
  let st' := foldl (operation m) st indices in
  {| sa := add32 (sa st) (sa st'); sb := add32 (sb st) (sb st');
     sc := add32 (sc st) (sc st'); sd := add32 (sd st) (sd st') |}.

Fixpoint le_bytes (n : nat) (x : N) : list N :=
  match n with
  | O => []
  | S n' => x mod 256 :: le_bytes n' (x / 256)
  end.

(** The message, a 1 bit, zeros up to 56 modulo 64, and the bit length on
    eight bytes. *)
Definition pad (msg : list N) : list N :=
  let len := N.of_nat (List.length msg) in
  let zeros := N.to_nat ((119 - len mod 64) mod 64) in
  (msg ++ [128] ++ replicate zeros 0 ++ le_bytes 8 ((8 * len) mod 2 ^ 64))%list.

Fixpoint blocks (fuel : nat) (bs : list N) : list (list N) :=
  match fuel, bs with
  | S fuel', _ :: _ => take 64 bs :: blocks fuel' (drop 64 bs)
  | _, _ => []
  end.

(** [hashlib.md5(data).digest()], sixteen bytes. *)
Definition md5_digest (data : list N) : list N :=
  let padded := pad data in
  let st :=
    foldl process_block init_state (blocks (List.length padded) padded) in
  (le_bytes 4 (sa st) ++ le_bytes 4 (sb st) ++ le_bytes 4 (sc st)
    ++ le_bytes 4 (sd st))%list.

Close Scope N_scope.

(** [hashlib.md5(data).hexdigest()], two lower-case hex digits per byte. *)
Definition md5_hexdigest (data : list N) : string :=
  String.concat "" (map (hex_pad 2) (md5_digest data)).

End hashlib.

(* ===================================================================== *)
(** ** json.dumps with its default separators and ensure_ascii *)
(* ===================================================================== *)

Module json.

(** One character of a string literal: the two-character escapes, then
    [\u00xx] for what is not printable ASCII. *)
Definition escape_char (c : ascii) : string :=
  let n := N_of_ascii c in
  if (n =? 34)%N then String backslash (String quote "")
  else if (n =? 92)%N then String backslash (String backslash "")
  else if (n =? 10)%N then String backslash "n"
  else if (n =? 13)%N then String backslash "r"
  else if (n =? 9)%N then String backslash "t"
  else if (n =? 12)%N then String backslash "f"
  else if (n =? 8)%N then String backslash "b"
  else if ((n <? 32) || (126 <? n))%N then
    String backslash "u" ++ hex_pad 4 n
  else String c "".

Fixpoint escape (s : string) : string :=
  match s with
  | EmptyString => ""
  | String c rest => escape_char c ++ escape rest
  end.

(** [encode_basestring_ascii]. *)
Definition dumps_str (s : string) : string :=
  String quote (escape s) ++ String quote "".

Definition rendered_le (x y : string * string) : Prop :=
  String.leb (fst x) (fst y) = true.

#[export] Instance rendered_le_dec (x y : string * string)
  : Decision (rendered_le x y).
Proof. unfold rendered_le. apply _. Defined.

(** [json.dumps(v, sort_keys=sort_keys)]. The members of a dict are rendered
    first and put in key order afterwards, which prints the same text. *)
Fixpoint dumps (sort_keys : bool) (v : pyval) : string :=
  match v with
  | PyNone => "null"
  | PyBool true => "true"
  | PyBool false => "false"
  | PyInt z => str_int z
  | PyStr s => dumps_str s
  | PyList items => "[" ++ join ", " (map (dumps sort_keys) items) ++ "]"
  | PyDict items =>
    let rendered := map (fun kv => (fst kv, dumps sort_keys (snd kv))) items in
    let ordered :=
      if sort_keys then merge_sort rendered_le rendered else rendered in
    "{" ++ join ", " (map (fun kv => dumps_str (fst kv) ++ ": " ++ snd kv)
                          ordered) ++ "}"
  end.

(** A list of [(name, value)] tuples as the list of two-element lists
    [json.dumps] sees. *)
Definition of_items (items : list (string * pyval)) : pyval :=
  PyList (map (fun kv => PyList [PyStr (fst kv); snd kv]) items).

End json.

(* ===================================================================== *)
(** ** The Redis server behind [redis.asyncio.Redis] *)
(* ===================================================================== *)

Module redis.

(** The server as the client sees it: every key with its value and the time
    it expires at, the server clock in seconds, and the fault, if any, that
    makes every command raise (server down, network cut). The client is
    created with [decode_responses=True], so values are strings. *)
Record Redis := mkRedis {
  entries : gmap string (string * Z);
  now : Z;
  fault : option redis_error
}.

(** The value of a key that has not expired. *)
Definition live (r : Redis) (key : string) : option string :=
  match entries r !! key with
  | Some (v, expires_at) => if (now r <? expires_at)%Z then Some v else None
  | None => None
  end.

(** Glob patterns of [KEYS], with [*] and [?]; the patterns of the cache
    service use [*] only. *)
Fixpoint glob (pattern : list ascii) : list ascii -> bool :=
  match pattern with
  | [] => fun s => match s with [] => true | _ :: _ => false end
  | p :: pattern' =>
    if Ascii.eqb p "*" then
      fix star (s : list ascii) : bool :=
        glob pattern' s
        || match s with [] => false | _ :: s' => star s' end
    else
      fun s =>
        match s with
        | [] => false
        | c :: s' => (Ascii.eqb p "?" || Ascii.eqb p c) && glob pattern' s'
        end
  end.

Definition matches (pattern key : string) : bool :=
  glob (list_ascii_of_string pattern) (list_ascii_of_string key).

Definition guarded {A} (r : Redis) (answer : result A) : result A :=
  match fault r with
  | Some e => Raise (RedisError e)
  | None => answer
  end.

(** [PING] *)
Definition ping (r : Redis) : result bool := guarded r (Ok true).

(** [GET key] *)
Definition get (key : string) (r : Redis) : result (option string) :=
  guarded r (Ok (live r key)).

(** [SETEX key seconds value]: the key expires [seconds] from now; a time
    that is not positive is refused. *)
Definition setex (key : string) (seconds : Z) (value : string) (r : Redis)
  : result Redis :=
  guarded r
    (if (seconds <=? 0)%Z then
       Raise (RedisError (ResponseError "invalid expire time in 'setex' command"))
     else
       Ok {| entries := <[key := (value, (now r + seconds)%Z)]> (entries r);
             now := now r; fault := fault r |}).

(** [KEYS pattern]: the live keys that match. *)
Definition keys (pattern : string) (r : Redis) : result (list string) :=
  guarded r
    (Ok (filter (fun k => is_Some (live r k) /\ matches pattern k = true)
                (map fst (map_to_list (entries r))))).

(** [DEL key ...]: the number of keys that were there. *)
Definition delete (names : list string) (r : Redis) : result (Z * Redis) :=
  guarded r
    (Ok (foldl (fun acc k =>
                  match live (snd acc) k with
                  | Some _ =>
                    ((fst acc + 1)%Z,
                     {| entries := base.delete k (entries (snd acc));
                        now := now r; fault := fault r |})
                  | None => acc
                  end) (0%Z, r) names)).

(** Time passes on the server. *)
Definition elapse (seconds : Z) (r : Redis) : Redis :=
  {| entries := entries r; now := (now r + seconds)%Z; fault := fault r |}.

End redis.

(* ===================================================================== *)
(** ** app/services/cache_service.py *)
(* ===================================================================== *)

Module cache_service.

(** What the methods [print]: one constructor per message, with the values
    the message is formatted from. *)
Inductive printed :=
  | CacheHitJobSearch (cache_key : string)
  | CacheGetError (e : exn)
  | CachedJobSearch (cache_key : string)
  | CacheSetError (e : exn)
  | CacheHitCompany (company_id : string)
  | CacheGetErrorCompany (company_id : string) (e : exn)
  | CachedCompany (company_id : string)
  | CacheSetErrorCompany (company_id : string) (e : exn)
  | InvalidatedJobSearch (count : nat)
  | CacheInvalidationError (e : exn).

(** A method body run against the server: its outcome, the server
    afterwards and what it printed. *)
Definition io (A : Type) : Type :=
  redis.Redis -> result A * redis.Redis * list printed.

Definition ret {A} (a : A) : io A := fun r => (Ok a, r, []).

Definition raise {A} (e : exn) : io A := fun r => (Raise e, r, []).

Definition io_bind {A B} (m : io A) (k : A -> io B) : io B :=
  fun r =>
    match m r with
    | (Ok a, r', out) =>
      let '(b, r'', out') := k a r' in (b, r'', (out ++ out')%list)
    | (Raise e, r', out) => (Raise e, r', out)
    end.

Notation "'let!' x ':=' m 'in' k" := (io_bind m (fun x => k))
  (at level 10, x name, m at level 100, k at level 200).

Definition print (line : printed) : io unit := fun r => (Ok tt, r, [line]).

(** A value computed without the server, or the exception it raises. *)
Definition lift {A} (x : result A) : io A := fun r => (x, r, []).

(** A command that only reads the server. *)
Definition query {A} (cmd : redis.Redis -> result A) : io A :=
  fun r => (cmd r, r, []).

(** A command that changes the server. *)
Definition update (cmd : redis.Redis -> result redis.Redis) : io unit :=
  fun r =>
    match cmd r with
    | Ok r' => (Ok tt, r', [])
    | Raise e => (Raise e, r, [])
    end.

(** [try: body except Exception as e: handler(e)]: what does not derive from
    [Exception] goes through. *)
Definition try_except {A} (body : io A) (handler : exn -> io A) : io A :=
  fun r =>
    match body r with
    | (Raise e, r', out) =>
      if is_Exception e then
        let '(a, r'', out') := handler e r' in (a, r'', (out ++ out')%list)
      else (Raise e, r', out)
    | done => done
    end.

(** The attributes of a [CacheService] object: [__init__] assigns these
    three and nothing else assigns any. *)
Record CacheService := mkCacheService {
  redis_client : option redis.Redis;
  ttl_config : gmap string Z;
  key_patterns : gmap string string
}.

Definition __init__ : CacheService :=
  {| redis_client := None;
     ttl_config :=
       list_to_map
         [("default", 300%Z); ("search", 180%Z); ("company", 3600%Z);
          ("user", 1800%Z); ("job_detail", 600%Z); ("graphql_query", 300%Z);
          ("application", 900%Z); ("session", 86400%Z)];
     key_patterns :=
       list_to_map
         [("jobs", "jobquest:jobs:*"); ("companies", "jobquest:company:*");
          ("users", "jobquest:user:*");
          ("applications", "jobquest:application:*");
          ("search", "jobquest:search:*"); ("graphql", "jobquest:graphql:*")]
  |}.

Definition with_client (self : CacheService) (c : option redis.Redis)
  : CacheService :=
  {| redis_client := c; ttl_config := ttl_config self;
     key_patterns := key_patterns self |}.

(** [connect]: the client is kept if the server answers [PING], and set to
    [None] if it raises (the line it prints either way is left out). *)
Definition connect (server : redis.Redis) (self : CacheService) : CacheService :=
  match redis.ping server with
  | Ok _ => with_client self (Some server)
  | Raise _ => with_client self None
  end.

(** What an attribute of the object evaluates to. *)
Inductive attribute :=
  | AttrClient (c : option redis.Redis)
  | AttrInt (z : Z)
  | AttrIntTable (t : gmap string Z)
  | AttrStrTable (t : gmap string string)
  | AttrMethod (name : string).

(** The instance dict. *)
Definition __dict__ (self : CacheService) : gmap string attribute :=
  list_to_map
    [("redis_client", AttrClient (redis_client self));
     ("ttl_config", AttrIntTable (ttl_config self));
     ("key_patterns", AttrStrTable (key_patterns self))].

(** The names the class defines; it has no [__getattr__]. *)
Definition methods : list string :=
  ["__init__"; "connect"; "disconnect"; "_generate_cache_key";
   "get_job_search_results"; "set_job_search_results"; "get_company_data";
   "set_company_data"; "invalidate_job_caches"; "get_cache_stats"].

(** [self.<name>] *)
Definition getattr (self : CacheService) (name : string) : result attribute :=
  match __dict__ self !! name with
  | Some a => Ok a
  | None =>
    if decide (name ∈ methods) then Ok (AttrMethod name)
    else Raise (AttributeError "CacheService" name)
  end.

(** The [time] argument of [setex] must be a number of seconds. *)
Definition as_seconds (a : attribute) : result Z :=
  match a with
  | AttrInt z => Ok z
  | _ => Raise (RedisError (DataError "Invalid input of type"))
  end.

(** [_generate_cache_key(prefix, **kwargs)] *)
Definition _generate_cache_key (prefix : string) (kw : kwargs) : string :=
  let sorted_params := sorted_items kw in
  let params_str := json.dumps true (json.of_items sorted_params) in
  let params_hash := py_slice (hashlib.md5_hexdigest (encode params_str)) 0 8 in
  "jobquest:" ++ prefix ++ ":" ++ params_hash.

(** The parameters of a job search, with the defaults of the signatures. *)
Record search_params := mkSearchParams {
  limit : Z;
  offset : Z;
  search : option string;
  location : option string;
  job_type : option string;
  experience_level : option string;
  remote_type : option string;
  user_created : option bool
}.

Definition default_params : search_params :=
  {| limit := 20; offset := 0; search := None; location := None;
     job_type := None; experience_level := None; remote_type := None;
     user_created := None |}.

Definition opt_str (o : option string) : pyval :=
  match o with Some s => PyStr s | None => PyNone end.

Definition opt_bool (o : option bool) : pyval :=
  match o with Some b => PyBool b | None => PyNone end.

(** The keyword arguments, in the order both methods write them. *)
Definition search_kwargs (p : search_params) : kwargs :=
  [("limit", PyInt (limit p)); ("offset", PyInt (offset p));
   ("search", opt_str (search p)); ("location", opt_str (location p));
   ("job_type", opt_str (job_type p));
   ("experience_level", opt_str (experience_level p));
   ("remote_type", opt_str (remote_type p));
   ("user_created", opt_bool (user_created p))].

(** [if cached_data:] a string is true when it is not empty. *)
Definition truthy (o : option string) : option string :=
  match o with
  | Some (String c s) => Some (String c s)
  | _ => None
  end.

Section Methods.

(** [json.loads], which raises [JSONDecodeError], a [ValueError], on text
    that is not JSON ([None] here). *)
Variable json_loads : string -> option pyval.

Definition loads (text : string) : io pyval :=
  match json_loads text with
  | Some v => ret v
  | None => raise (ValueError "JSONDecodeError")
  end.

(** What a method leaves behind: its outcome, the service with the server
    as the method left it, and the lines printed. *)
Definition run {A} (self : CacheService) (client : redis.Redis) (body : io A)
  : result A * CacheService * list printed :=
  let '(a, r, out) := body client in (a, with_client self (Some r), out).

(** [get_job_search_results] *)
Definition get_job_search_results (p : search_params) (self : CacheService)
  : result (option pyval) * CacheService * list printed :=
  match redis_client self with
  | None => (Ok None, self, [])
  | Some client =>
    run self client
      (try_except
         (let cache_key := _generate_cache_key "jobs" (search_kwargs p) in
          let! cached_data := query (redis.get cache_key) in
          match truthy cached_data with
          | Some text =>
            let! _ := print (CacheHitJobSearch cache_key) in
            let! v := loads text in
            ret (Some v)
          | None => ret None
          end)
         (fun e =>
            let! _ := print (CacheGetError e) in
            ret None))
  end.

(** [set_job_search_results]. [utcnow] is [datetime.utcnow().isoformat()];
    the arguments of [setex] are evaluated left to right, before the call. *)
Definition set_job_search_results
    (results : list pyval) (p : search_params) (utcnow : string)
    (self : CacheService)
  : result bool * CacheService * list printed :=
  match redis_client self with
  | None => (Ok false, self, [])
  | Some client =>
    run self client
      (try_except
         (let cache_key := _generate_cache_key "jobs" (search_kwargs p) in
          let cache_data :=
            PyDict [("results", PyList results);
                    ("cached_at", PyStr utcnow);
                    ("params", PyDict (search_kwargs p))] in
          let! search_ttl := lift (getattr self "search_ttl") in
          let! seconds := lift (as_seconds search_ttl) in
          let! _ := update (redis.setex cache_key seconds
                              (json.dumps false cache_data)) in
          let! _ := print (CachedJobSearch cache_key) in
          ret true)
         (fun e =>
            let! _ := print (CacheSetError e) in
            ret false))
  end.

(** [get_company_data] *)
Definition get_company_data (company_id : string) (self : CacheService)
  : result (option pyval) * CacheService * list printed :=
  match redis_client self with
  | None => (Ok None, self, [])
  | Some client =>
    run self client
      (try_except
         (let cache_key := "jobquest:company:" ++ company_id in
          let! cached_data := query (redis.get cache_key) in
          match truthy cached_data with
          | Some text =>
            let! _ := print (CacheHitCompany company_id) in
            let! v := loads text in
            ret (Some v)
          | None => ret None
          end)
         (fun e =>
            let! _ := print (CacheGetErrorCompany company_id e) in
            ret None))
  end.

(** [set_company_data] *)
Definition set_company_data
    (company_id : string) (company_data : pyval) (self : CacheService)
  : result bool * CacheService * list printed :=
  match redis_client self with
  | None => (Ok false, self, [])
  | Some client =>
    run self client
      (try_except
         (let cache_key := "jobquest:company:" ++ company_id in
          let! company_ttl := lift (getattr self "company_ttl") in
          let! seconds := lift (as_seconds company_ttl) in
          let! _ := update (redis.setex cache_key seconds
                              (json.dumps false company_data)) in
          let! _ := print (CachedCompany company_id) in
          ret true)
         (fun e =>
            let! _ := print (CacheSetErrorCompany company_id e) in
            ret false))
  end.

(** [invalidate_job_caches]: every path ends without a [return] value, so
    the call evaluates to [None]. *)
Definition invalidate_job_caches (self : CacheService)
  : result pyval * CacheService * list printed :=
  match redis_client self with
  | None => (Ok PyNone, self, [])
  | Some client =>
    run self client
      (try_except
         (let! job_keys := query (redis.keys "jobquest:jobs:*") in
          match job_keys with
          | _ :: _ =>
            let! _ := update (fun r => let* d := redis.delete job_keys r in
                                       Ok (snd d)) in
            let! _ := print (InvalidatedJobSearch (List.length job_keys)) in
            ret PyNone
          | [] => ret PyNone
          end)
         (fun e =>
            let! _ := print (CacheInvalidationError e) in
            ret PyNone))
  end.

End Methods.

End cache_service.

(* ===================================================================== *)
(** ** app/core/monitoring.py: the cache metrics and the timing helper *)
(* ===================================================================== *)

Module monitoring.

(** An entry of [cache_operations]. [timestamp] is [datetime.utcnow()] in
    microseconds. *)
Record cache_operation := mkCacheOperation {
  type : string;
  hit : bool;
  duration_ms : float;
  timestamp : Z
}.

(** The cache metrics of [MetricsCollector], two [deque(maxlen=100)]. *)
Record MetricsCollector := mkMetricsCollector {
  cache_hit_rate : list float;
  cache_operations : list cache_operation
}.

(** [d.append(x)] on a [deque(maxlen=maxlen)]: when full, the oldest entry
    leaves at the other end. *)
Definition deque_append {A} (maxlen : nat) (d : list A) (x : A) : list A :=
  let d' := (d ++ [x])%list in
  drop (List.length d' - maxlen) d'.

Definition float_of_nat (n : nat) : float :=
  PrimFloat.of_uint63 (Uint63.of_Z (Z.of_nat n)).

(** [record_cache_operation] *)
Definition record_cache_operation
    (operation_type : string) (hit_ : bool) (duration : float) (utcnow : Z)
    (self : MetricsCollector) : MetricsCollector :=
  let ops :=
    deque_append 100 (cache_operations self)
      {| type := operation_type; hit := hit_; duration_ms := duration;
         timestamp := utcnow |} in
  let recent_ops := drop (List.length ops - 50) ops in
  match recent_ops with
  | _ :: _ =>
    let hits := List.length (filter (fun op => hit op = true) recent_ops) in
    let hit_rate :=
      (float_of_nat hits / float_of_nat (List.length recent_ops) * 100)%float in
    {| cache_hit_rate := deque_append 100 (cache_hit_rate self) hit_rate;
       cache_operations := ops |}
  | [] => {| cache_hit_rate := cache_hit_rate self; cache_operations := ops |}
  end.

(** A local variable's value. *)
Inductive local :=
  | LStr (s : string)
  | LFloat (f : float)
  | LBool (b : bool)
  | LNone.

(** What [setattr] can be applied to: a dict, which has no attribute that
    can be set, or an instance of a class, which takes any. *)
Inductive object :=
  | DictObject (items : gmap string local)
  | Instance (class_name : string) (attrs : gmap string local).

(** [setattr(o, name, v)] *)
Definition setattr (o : object) (name : string) (v : local) : result object :=
  match o with
  | DictObject _ => Raise (AttributeError "dict" name)
  | Instance c attrs => Ok (Instance c (<[name := v]> attrs))
  end.

(** [locals()] inside a function: a dict holding a copy of the local
    variables of the frame that calls it. *)
Definition locals (frame_vars : gmap string local) : object :=
  DictObject frame_vars.

(** The local variables of a [track_cache_operation] generator. *)
Record frame := mkFrame {
  operation_type : string;
  start_time : float;
  hit_var : bool
}.

(** [lambda: setattr(locals(), 'hit', True)], called while the generator
    frame [enclosing] is suspended at its [yield]. The call has a frame of
    its own, without variables; [locals()] is evaluated there. The call
    can reach [enclosing] through the value it computes only; what it
    returns or raises and the enclosing frame afterwards are the result. *)
Definition hit_lambda (enclosing : frame) : result local * frame :=
  let own_frame : gmap string local := ∅ in
  match setattr (locals own_frame) "hit" (LBool true) with
  | Ok _ => (Ok LNone, enclosing)
  | Raise e => (Raise e, enclosing)
  end.

(** The block under [async with track_cache_operation(...) as ctx]: it ends
    normally, raises, calls [ctx["hit"]()] and goes on according to what
    the call returned or raised (it may catch it), or acts on the global
    collector. *)
Inductive block :=
  | Pass
  | RaiseFrom (e : exn)
  | CallHit (k : result local -> block)
  | OnCollector (f : MetricsCollector -> MetricsCollector) (k : block).

Fixpoint run_block (b : block) (fr : frame) (collector : MetricsCollector)
  : result unit * frame * MetricsCollector :=
  match b with
  | Pass => (Ok tt, fr, collector)
  | RaiseFrom e => (Raise e, fr, collector)
  | CallHit k =>
    let '(r, fr') := hit_lambda fr in run_block (k r) fr' collector
  | OnCollector f k => run_block k fr (f collector)
  end.

(** [track_cache_operation] around a block. [start], [stop] are the two
    readings of [time.time()] and [utcnow] that of [datetime.utcnow()] in
    [record_cache_operation]. The [finally] clause runs however the block
    ends, and what the block raised goes on to the caller. The second
    component is the [hit] argument of the [record_cache_operation] call. *)
Definition track_cache_operation
    (op : string) (start stop : float) (utcnow : Z) (b : block)
    (metrics_collector : MetricsCollector)
  : result unit * bool * MetricsCollector :=
  let fr := {| operation_type := op; start_time := start; hit_var := false |} in
  let '(outcome, fr', collector') := run_block b fr metrics_collector in
  let end_time := stop in
  let duration := ((end_time - start_time fr') * 1000)%float in
  (outcome, hit_var fr',
   record_cache_operation (operation_type fr') (hit_var fr') duration utcnow
     collector').

(** *** Request metrics *)

(** [RequestMetrics]. [timestamp] is [datetime.utcnow()] in microseconds;
    the three counters of the dataclass, which nothing sets, are left
    out. *)
Module RequestMetrics.
Record t := mk {
  path : string;
  method : string;
  status_code : Z;
  duration_ms : float;
  timestamp : Z;
  user_id : option string;
  graphql_operation : option string;
  errors : list string
}.
End RequestMetrics.

(** The request and database attributes of [MetricsCollector]. The two
    [defaultdict(int)] and the [defaultdict] of deques are maps read with
    their default. *)
Record RequestCollector := mkRequestCollector {
  max_history : nat;
  request_history : list RequestMetrics.t;
  active_requests : gmap string Z;
  response_times : gmap string (list float);
  error_counts : gmap string Z;
  request_counts : gmap string Z;
  db_query_times : list float
}.

(** [MetricsCollector(max_history)], before any request. *)
Definition new_collector (max_history_ : nat) : RequestCollector :=
  {| max_history := max_history_; request_history := [];
     active_requests := ∅; response_times := ∅; error_counts := ∅;
     request_counts := ∅; db_query_times := [] |}.

(** [f"{metrics.method}:{metrics.path}"] *)
Definition endpoint_key_of (metrics : RequestMetrics.t) : string :=
  RequestMetrics.method metrics ++ ":" ++ RequestMetrics.path metrics.

(** [d[key] += 1] on a [defaultdict(int)]. *)
Definition increment (d : gmap string Z) (key : string) : gmap string Z :=
  <[key := (default 0 (d !! key) + 1)%Z]> d.

(** [record_request] *)
Definition record_request (metrics : RequestMetrics.t) (self : RequestCollector)
  : RequestCollector :=
  let endpoint_key := endpoint_key_of metrics in
  {| max_history := max_history self;
     request_history :=
       deque_append (max_history self) (request_history self) metrics;
     active_requests := active_requests self;
     response_times :=
       <[endpoint_key :=
           deque_append 100 (default [] (response_times self !! endpoint_key))
             (RequestMetrics.duration_ms metrics)]> (response_times self);
     error_counts :=
       if (400 <=? RequestMetrics.status_code metrics)%Z
       then increment (error_counts self) endpoint_key
       else error_counts self;
     request_counts := increment (request_counts self) endpoint_key;
     db_query_times := db_query_times self |}.

(** [record_db_query] *)
Definition record_db_query (duration : float) (self : RequestCollector)
  : RequestCollector :=
  {| max_history := max_history self;
     request_history := request_history self;
     active_requests := active_requests self;
     response_times := response_times self;
     error_counts := error_counts self;
     request_counts := request_counts self;
     db_query_times := deque_append 100 (db_query_times self) duration |}.

(** [track_database_query] around a block that may change the collector:
    the duration is recorded however the block ends. *)
Definition track_database_query
    (start stop : float)
    (body : RequestCollector -> result unit * RequestCollector)
    (metrics_collector : RequestCollector)
  : result unit * RequestCollector :=
  let start_time := start in
  let '(outcome, collector') := body metrics_collector in
  let end_time := stop in
  let duration := ((end_time - start_time) * 1000)%float in
  (outcome, record_db_query duration collector').

(** *** PerformanceMiddleware *)

(** What [dispatch] reads of the request: the path and method, [id(request)],
    the id of [request.state.user] when the attribute is there and true,
    and [request.state.graphql_operation] when the attribute is there. *)
Record Request := mkRequest {
  url_path : string;
  request_method : string;
  request_id : Z;
  state_user : option UUID;
  state_graphql_operation : option string
}.

(** The response: its status and its headers, which [MutableHeaders] keeps
    under their lower-cased names. *)
Record Response := mkResponse {
  response_status_code : Z;
  headers : gmap string string
}.

(** [response.headers[name] = value], [name] in lower case. *)
Definition set_header (name value : string) (r : Response) : Response :=
  {| response_status_code := response_status_code r;
     headers := <[name := value]> (headers r) |}.

Definition with_active_requests (c : RequestCollector) (active : gmap string Z)
  : RequestCollector :=
  {| max_history := max_history c;
     request_history := request_history c;
     active_requests := active;
     response_times := response_times c;
     error_counts := error_counts c;
     request_counts := request_counts c;
     db_query_times := db_query_times c |}.

(** [s.endswith(suffix)] *)
Definition endswith (s suffix : string) : bool :=
  bool_decide (substring (String.length s - String.length suffix)
                         (String.length suffix) s = suffix
               /\ String.length suffix <= String.length s).

Section Dispatch.

(** [str(e)] of an exception and the [.2f] format of a float. *)
Variable str_of_exception : exn -> string.
Variable format_2f : float -> string.

(** [PerformanceMiddleware.dispatch]. [call_next] runs the rest of the
    application, other requests included: it may change the collector.
    [start], [stop] are the readings of [time.time()], [utcnow1], [utcnow2]
    those of [datetime.utcnow()]. *)
Definition dispatch
    (request : Request)
    (call_next : RequestCollector -> result Response * RequestCollector)
    (start stop : float) (utcnow1 utcnow2 : Z)
    (metrics_collector : RequestCollector)
  : result Response * RequestCollector :=
  let start_time := start in
  let key := str_int (request_id request) in
  let c1 :=
    with_active_requests metrics_collector
      (<[key := utcnow1]> (active_requests metrics_collector)) in
  let user_id := uuid_str <$> state_user request in
  let '(outcome, c2) := call_next c1 in
  let response := match outcome with Ok r => Some r | Raise _ => None end in
  let errors :=
    match outcome with
    | Raise e => if is_Exception e then [str_of_exception e] else []
    | Ok _ => []
    end in
  (* finally *)
  let end_time := stop in
  let duration := ((end_time - start_time) * 1000)%float in
  let c3 := with_active_requests c2 (delete key (active_requests c2)) in
  let request_metrics :=
    {| RequestMetrics.path := url_path request;
       RequestMetrics.method := request_method request;
       RequestMetrics.status_code :=
         match response with
         | Some r => response_status_code r
         | None => 500%Z
         end;
       RequestMetrics.duration_ms := duration;
       RequestMetrics.timestamp := utcnow2;
       RequestMetrics.user_id := user_id;
       RequestMetrics.graphql_operation :=
         if endswith (url_path request) "/graphql"
         then state_graphql_operation request
         else None;
       RequestMetrics.errors := errors |} in
  let c4 := record_request request_metrics c3 in
  match outcome with
  | Ok r =>
    (Ok (set_header "x-request-id" key
           (set_header "x-response-time" (format_2f duration ++ "ms") r)),
     c4)
  | Raise e => (Raise e, c4)
  end.

End Dispatch.

End monitoring.

(* ===================================================================== *)
(** ** app/core/dataloaders.py *)
(* ===================================================================== *)

Module dataloaders.

(** *** BaseDataLoader and the list loaders built on [_execute_batch]

    [CompanyDataLoader], [UserDataLoader] and [JobDataLoader] are the same
    code up to the entity they select and the [loader_key] string they pass
    to [_execute_batch]; the section is over both. *)
Section ListLoader.

Context {Entity : Type}.
(** The primary key column, [BaseModel.id]. *)
Variable entity_id : Entity -> UUID.
(** ["companies"], ["users"] or ["jobs_with_relations"]. *)
Variable loader_key : string.

(** The [AsyncSession] as the loader sees it: the rows of the table it
    selects from, and the id lists of the [IN] clause of every statement it
    was asked to execute so far, oldest first. The loaders only read: no
    step of theirs changes the rows. *)
Record AsyncSession := mkSession {
  table : list Entity;
  executed : list (list UUID)
}.

(** [BaseDataLoader.__init__]: the session, the memo dict and the two
    defaultdicts, which no method reads or writes afterwards. *)
Record BaseDataLoader := mkLoader {
  db_session : AsyncSession;
  _cache : gmap string (list (option Entity));
  _batch_requests : gmap string (list UUID);
  _batch_promises : gmap string (list UUID)
}.

Definition __init__ (session : AsyncSession) : BaseDataLoader :=
  {| db_session := session; _cache := ∅;
     _batch_requests := ∅; _batch_promises := ∅ |}.

(** [f"{loader_key}:{','.join(str(k) for k in keys)}"] *)
Definition cache_key_of (keys : list UUID) : string :=
  loader_key ++ ":" ++ join "," (map uuid_str keys).

(** [self.db_session.execute(select(E).where(E.id.in_(ids)))] up to the
    point where the coroutine waits for the database: the statement has been
    handed to the session. *)
Definition send_select_in (ids : list UUID) (s : AsyncSession) : AsyncSession :=
  {| table := table s; executed := executed s ++ [ids] |}.

(** [result.scalars().all()] once the database has answered: the rows whose
    id is one of [ids], in table order. *)
Definition scalars_all (ids : list UUID) (s : AsyncSession) : list Entity :=
  filter (fun e => entity_id e ∈ ids) (table s).

(** [{e.id: e for e in entities}]: a later row replaces an earlier one. *)
Definition id_map (entities : list Entity) : gmap UUID Entity :=
  foldl (fun m e => <[entity_id e := e]> m) ∅ entities.

Definition with_session (self : BaseDataLoader) (s : AsyncSession) : BaseDataLoader :=
  {| db_session := s; _cache := _cache self;
     _batch_requests := _batch_requests self;
     _batch_promises := _batch_promises self |}.

Definition with_cache (self : BaseDataLoader)
    (c : gmap string (list (option Entity))) : BaseDataLoader :=
  {| db_session := db_session self; _cache := c;
     _batch_requests := _batch_requests self;
     _batch_promises := _batch_promises self |}.

(** [_batch_load_companies] (and its siblings [_batch_load_users],
    [_batch_load_jobs_with_relations]) is cut at its one [await]:
    [_batch_load_send] builds the query and sends it, [_batch_load_recv]
    builds the id map from the rows and lists [entity_map.get(id)] for the
    requested ids, in their order. *)
Definition _batch_load_send (ids : list UUID) (self : BaseDataLoader)
  : BaseDataLoader :=
  with_session self (send_select_in ids (db_session self)).

Definition _batch_load_recv (ids : list UUID) (self : BaseDataLoader)
  : list (option Entity) :=
  let entities := scalars_all ids (db_session self) in
  let entity_map := id_map entities in
  map (fun i => entity_map !! i) ids.

(** How far a [load_many] call got when it gave control back to the event
    loop: it returned, or it is suspended in [_execute_batch] at
    [await batch_fn(keys)]. *)
Inductive progress :=
  | Finished (results : list (option Entity))
  | Suspended (keys : list UUID).

(** [_execute_batch], first half: the memo is looked up under the key made
    of the whole key list; on a miss [batch_fn(keys)] is called. *)
Definition _execute_batch_start (keys : list UUID) (self : BaseDataLoader)
  : progress * BaseDataLoader :=
  let cache_key := cache_key_of keys in
  match _cache self !! cache_key with
  | Some results => (Finished results, self)
  | None => (Suspended keys, _batch_load_send keys self)
  end.

(** [_execute_batch], second half: the results are stored under the cache
    key and returned. *)
Definition _execute_batch_resume (keys : list UUID) (self : BaseDataLoader)
  : list (option Entity) * BaseDataLoader :=
  let results := _batch_load_recv keys self in
  (results, with_cache self (<[cache_key_of keys := results]> (_cache self))).

(** [load_many] up to its first suspension: [if not ids: return []], then
    [_execute_batch]. *)
Definition load_many_start (ids : list UUID) (self : BaseDataLoader)
  : progress * BaseDataLoader :=
  match ids with
  | [] => (Finished [], self)
  | _ :: _ => _execute_batch_start ids self
  end.

(** [await loader.load_many(ids)] with no other coroutine running in
    between. *)
Definition load_many (ids : list UUID) (self : BaseDataLoader)
  : list (option Entity) * BaseDataLoader :=
  match load_many_start ids self with
  | (Finished results, self') => (results, self')
  | (Suspended keys, self') => _execute_batch_resume keys self'
  end.

(** [companies[0] if companies else None] *)
Definition first_or_none (xs : list (option Entity)) : option Entity :=
  match xs with
  | x :: _ => x
  | [] => None
  end.

(** [await loader.load(id)]. *)
Definition load (id : UUID) (self : BaseDataLoader)
  : option Entity * BaseDataLoader :=
  let '(entities, self') := load_many [id] self in
  (first_or_none entities, self').

(** A call a resolver makes on the loader. *)
Inductive call :=
  | Load (id : UUID)
  | LoadMany (ids : list UUID).

(** The key list a call hands to [load_many]. *)
Definition call_ids (c : call) : list UUID :=
  match c with
  | Load id => [id]
  | LoadMany ids => ids
  end.

(** Calls awaited one after the other. *)
Definition run_sequential (calls : list call) (self : BaseDataLoader)
  : BaseDataLoader :=
  foldl (fun s c => snd (load_many (call_ids c) s)) self calls.

(** One scheduling tick: the event loop starts the coroutines of [calls] in
    the order they were created, each running up to its first suspension
    (as under [asyncio.gather]); no answer of the database has arrived
    yet. *)
Fixpoint tick (calls : list call) (self : BaseDataLoader)
  : list progress * BaseDataLoader :=
  match calls with
  | [] => ([], self)
  | c :: rest =>
    let '(p, self1) := load_many_start (call_ids c) self in
    let '(ps, self2) := tick rest self1 in
    (p :: ps, self2)
  end.

(** The answers arrive and the suspended coroutines are resumed in turn. *)
Fixpoint settle (ps : list progress) (self : BaseDataLoader)
  : list (list (option Entity)) * BaseDataLoader :=
  match ps with
  | [] => ([], self)
  | Finished r :: rest =>
    let '(rs, self') := settle rest self in (r :: rs, self')
  | Suspended keys :: rest =>
    let '(r, self1) := _execute_batch_resume keys self in
    let '(rs, self2) := settle rest self1 in
    (r :: rs, self2)
  end.

(** [await asyncio.gather] over the coroutines of [calls]: the lists the
    [load_many] calls return, in call order ([load] takes the first entry
    of its list). *)
Definition gather (calls : list call) (self : BaseDataLoader)
  : list (list (option Entity)) * BaseDataLoader :=
  let '(ps, self1) := tick calls self in settle ps self1.

(** The fetcher invocations so far, as the key lists it was called with. *)
Definition fetches (self : BaseDataLoader) : list (list UUID) :=
  executed (db_session self).

End ListLoader.

Arguments AsyncSession : clear implicits.
Arguments BaseDataLoader : clear implicits.
Arguments progress : clear implicits.

(** *** The entities *)

Record Company := mkCompany { company_id : UUID; company_name : string }.
Record User := mkUser { user_id : UUID; user_email : string }.
Record Job := mkJob { job_id : UUID; job_title : string; job_company_id : UUID }.

(** [CompanyDataLoader], [UserDataLoader], [JobDataLoader]. *)
Module CompanyDataLoader.
Definition load_many := @load_many Company company_id "companies".
Definition load := @load Company company_id "companies".
Definition gather := @gather Company company_id "companies".
Definition tick := @tick Company "companies".
Definition run_sequential := @run_sequential Company company_id "companies".
End CompanyDataLoader.

Module UserDataLoader.
Definition load_many := @load_many User user_id "users".
Definition load := @load User user_id "users".
End UserDataLoader.

Module JobDataLoader.
Definition load_many := @load_many Job job_id "jobs_with_relations".
Definition load := @load Job job_id "jobs_with_relations".
End JobDataLoader.

(** *** JobApplicationDataLoader

    The same [BaseDataLoader] fields; the memo holds, per user, the dict
    that [_batch_load_user_applications] returned. *)
Record JobApplication := mkJobApplication {
  application_id : UUID;
  application_user_id : UUID;
  application_job_id : UUID;
  application_status : string
}.

Module JobApplicationDataLoader.

(** The session: the job_applications table and, for every statement
    executed, the user id and the job-id list of its [where] clause. *)
Record AsyncSession := mkSession {
  table : list JobApplication;
  executed : list (UUID * list UUID)
}.

Record t := mkLoader {
  db_session : AsyncSession;
  _cache : gmap string (gmap UUID JobApplication)
}.

Definition __init__ (session : AsyncSession) : t :=
  {| db_session := session; _cache := ∅ |}.

(** [f"user_applications:{user_id}"] *)
Definition cache_key_of (user_id : UUID) : string :=
  "user_applications:" ++ uuid_str user_id.

(** [_batch_load_user_applications]: the applications of [user_id] whose
    job is one of [job_ids], as a dict by job id. *)
Definition _batch_load_user_applications
    (user_id : UUID) (job_ids : list UUID) (s : AsyncSession)
  : gmap UUID JobApplication * AsyncSession :=
  let applications :=
    filter (fun a => application_user_id a = user_id
                     /\ application_job_id a ∈ job_ids) (table s) in
  (foldl (fun m a => <[application_job_id a := a]> m) ∅ applications,
   {| table := table s; executed := executed s ++ [(user_id, job_ids)] |}).

(** [{job_id: cached_applications.get(job_id) for job_id in job_ids}] *)
Definition answer (cached : gmap UUID JobApplication) (job_ids : list UUID)
  : gmap UUID (option JobApplication) :=
  foldl (fun m j => <[j := cached !! j]> m) ∅ job_ids.

(** [load_user_applications_for_jobs]. The two reads of
    [self._cache[cache_key]] (the membership test and the lookup after it)
    are one [match] here. *)
Definition load_user_applications_for_jobs
    (user_id : UUID) (job_ids : list UUID) (self : t)
  : gmap UUID (option JobApplication) * t :=
  match job_ids with
  | [] => (∅, self)
  | _ :: _ =>
    let cache_key := cache_key_of user_id in
    let '(cached_applications, self') :=
      match _cache self !! cache_key with
      | Some cached => (cached, self)
      | None =>
        let '(applications, s) :=
          _batch_load_user_applications user_id job_ids (db_session self) in
        (applications,
         {| db_session := s;
            _cache := <[cache_key := applications]> (_cache self) |})
      end in
    (answer cached_applications job_ids, self')
  end.

(** [load_user_application_for_job]: [applications.get(job_id)]. *)
Definition load_user_application_for_job
    (user_id job_id : UUID) (self : t) : option JobApplication * t :=
  let '(applications, self') :=
    load_user_applications_for_jobs user_id [job_id] self in
  (default None (applications !! job_id), self').

(** Calls awaited one after the other, each a user and a job-id list. *)
Definition run_sequential (calls : list (UUID * list UUID)) (self : t) : t :=
  foldl (fun s c => snd (load_user_applications_for_jobs (fst c) (snd c) s))
        self calls.

End JobApplicationDataLoader.

End dataloaders.

(* ===================================================================== *)
(** ** app/core/dataloaders.py: the registry and its context manager *)
(* ===================================================================== *)

Module DataLoaderRegistry.
Import dataloaders.

(** The database behind the session the registry is given: the four tables
    its loaders select from. *)
Record Database := mkDatabase {
  companies : list Company;
  users : list User;
  jobs : list Job;
  job_applications : list JobApplication
}.

(** [self._loaders], a dict that only ever gets the keys ['company'],
    ['user'], ['job_application'] and ['job'], each with a loader of one
    class: one optional field per key. *)
Record t := mkRegistry {
  db_session : Database;
  company : option (BaseDataLoader Company);
  user : option (BaseDataLoader User);
  job_application : option JobApplicationDataLoader.t;
  job : option (BaseDataLoader Job)
}.

Definition __init__ (session : Database) : t :=
  {| db_session := session; company := None; user := None;
     job_application := None; job := None |}.

Definition set_company (self : t) (l : BaseDataLoader Company) : t :=
  {| db_session := db_session self; company := Some l; user := user self;
     job_application := job_application self; job := job self |}.

Definition set_user (self : t) (l : BaseDataLoader User) : t :=
  {| db_session := db_session self; company := company self; user := Some l;
     job_application := job_application self; job := job self |}.

Definition set_job_application (self : t) (l : JobApplicationDataLoader.t) : t :=
  {| db_session := db_session self; company := company self; user := user self;
     job_application := Some l; job := job self |}.

Definition set_job (self : t) (l : BaseDataLoader Job) : t :=
  {| db_session := db_session self; company := company self; user := user self;
     job_application := job_application self; job := Some l |}.

(** [get_company_loader]: get or create. *)
Definition get_company_loader (self : t) : BaseDataLoader Company * t :=
  match company self with
  | Some l => (l, self)
  | None =>
    let l := dataloaders.__init__ (mkSession (companies (db_session self)) []) in
    (l, set_company self l)
  end.

(** [get_user_loader] *)
Definition get_user_loader (self : t) : BaseDataLoader User * t :=
  match user self with
  | Some l => (l, self)
  | None =>
    let l := dataloaders.__init__ (mkSession (users (db_session self)) []) in
    (l, set_user self l)
  end.

(** [get_job_application_loader] *)
Definition get_job_application_loader (self : t)
  : JobApplicationDataLoader.t * t :=
  match job_application self with
  | Some l => (l, self)
  | None =>
    let l := JobApplicationDataLoader.__init__
               (JobApplicationDataLoader.mkSession
                  (job_applications (db_session self)) []) in
    (l, set_job_application self l)
  end.

(** [get_job_loader] *)
Definition get_job_loader (self : t) : BaseDataLoader Job * t :=
  match job self with
  | Some l => (l, self)
  | None =>
    let l := dataloaders.__init__ (mkSession (jobs (db_session self)) []) in
    (l, set_job self l)
  end.

(** [loader._cache.clear()] *)
Definition clear {Entity} (l : BaseDataLoader Entity) : BaseDataLoader Entity :=
  with_cache l ∅.

Definition clear_applications (l : JobApplicationDataLoader.t)
  : JobApplicationDataLoader.t :=
  {| JobApplicationDataLoader.db_session := JobApplicationDataLoader.db_session l;
     JobApplicationDataLoader._cache := ∅ |}.

(** [clear_cache]: the memo of every loader the registry holds is emptied;
    the loaders stay. *)
Definition clear_cache (self : t) : t :=
  {| db_session := db_session self;
     company := clear <$> company self;
     user := clear <$> user self;
     job_application := clear_applications <$> job_application self;
     job := clear <$> job self |}.

(** [async with DataLoaderContext(session) as registry: body]: [__aenter__]
    hands out the registry, [__aexit__] clears the memos however the body
    ended, and what the body returned or raised is the outcome. *)
Definition DataLoaderContext {A} (session : Database)
    (body : t -> result A * t) : result A * t :=
  let registry := __init__ session in
  let '(outcome, registry') := body registry in
  (outcome, clear_cache registry').

End DataLoaderRegistry.

(* ===================================================================== *)
(** ** app/graphql/context.py *)
(* ===================================================================== *)

Module context.
Import dataloaders.

(** [GraphQLContext] without the request object. *)
Record GraphQLContext := mkGraphQLContext {
  db_session : DataLoaderRegistry.Database;
  user : option User;
  _dataloaders : option DataLoaderRegistry.t
}.

Definition __init__ (session : DataLoaderRegistry.Database) (u : option User)
  : GraphQLContext :=
  {| db_session := session; user := u; _dataloaders := None |}.

Definition set_dataloaders (self : GraphQLContext) (r : DataLoaderRegistry.t)
  : GraphQLContext :=
  {| db_session := db_session self; user := user self; _dataloaders := Some r |}.

(** The [dataloaders] property: the registry, created at the first access. *)
Definition dataloaders (self : GraphQLContext)
  : DataLoaderRegistry.t * GraphQLContext :=
  match _dataloaders self with
  | None =>
    let r := DataLoaderRegistry.__init__ (db_session self) in
    (r, set_dataloaders self r)
  | Some r => (r, self)
  end.

(** [get_user_id] *)
Definition get_user_id (self : GraphQLContext) : option string :=
  match user self with
  | Some u => Some (uuid_str (user_id u))
  | None => None
  end.

(** [is_authenticated] *)
Definition is_authenticated (self : GraphQLContext) : bool :=
  match user self with Some _ => true | None => false end.

(** [clear_dataloaders]: nothing is created when there is no registry. *)
Definition clear_dataloaders (self : GraphQLContext) : GraphQLContext :=
  match _dataloaders self with
  | Some r => set_dataloaders self (DataLoaderRegistry.clear_cache r)
  | None => self
  end.

(** [get_dataloaders(info)] of dataloaders.py with a [GraphQLContext] as
    [info.context]: [hasattr(info.context, 'dataloaders')] evaluates the
    property, which creates the registry if need be and does not raise, so
    the test is true and the property is read again for the result. *)
Definition get_dataloaders (info_context : GraphQLContext)
  : DataLoaderRegistry.t * GraphQLContext :=
  let '(_, info_context1) := dataloaders info_context in
  dataloaders info_context1.

(** What a resolver does with the company loader, as in
    [get_dataloaders(info).get_company_loader().load(company_id)]. The
    registry is the object the context holds and the loader is the object
    the registry holds: what the calls change in them is changed there. *)
Definition load_company (id : UUID) (info_context : GraphQLContext)
  : option Company * GraphQLContext :=
  let '(registry, info_context1) := get_dataloaders info_context in
  let '(company_loader, registry1) :=
    DataLoaderRegistry.get_company_loader registry in
  let '(result, company_loader') :=
    CompanyDataLoader.load id company_loader in
  (result,
   set_dataloaders info_context1
     (DataLoaderRegistry.set_company registry1 company_loader')).

(** The queries the company loader of the context has made, if there is
    one. *)
Definition company_fetches (self : GraphQLContext) : list (list UUID) :=
  match _dataloaders self with
  | Some r =>
    match DataLoaderRegistry.company r with
    | Some l => fetches l
    | None => []
    end
  | None => []
  end.

End context.

(* ===================================================================== *)
(** * Properties *)
(* ===================================================================== *)

(** ** The timing helper of monitoring.py *)

Section Monitoring.
Import monitoring.

(** The call of the lambda raises and leaves the generator's variables as
    they were. *)
Lemma hit_lambda_raises (fr : frame) :
  hit_lambda fr = (Raise (AttributeError "dict" "hit"), fr).
Proof. reflexivity. Qed.

(** Whatever the block does, the frame of the generator is the same when
    the block is over. *)
Lemma run_block_frame (b : block) :
  forall fr c, (run_block b fr c).1.2 = fr.
Proof.
  induction b as [| e | k IH | f k IH]; intros fr c; simpl.
  - reflexivity.
  - reflexivity.
  - apply IH.
  - apply IH.
Qed.

Lemma last_drop {A} (l : list A) (n : nat) :
  n < List.length l -> last (drop n l) = last l.
Proof.
  revert n. induction l as [|x l IH]; intros n Hn; simpl in *.
  - lia.
  - destruct n as [|n]; [reflexivity|].
    simpl. rewrite IH by lia.
    destruct l; [simpl in *; lia | reflexivity].
Qed.

Lemma last_deque_append {A} (maxlen : nat) (d : list A) (x : A) :
  0 < maxlen -> last (deque_append maxlen d x) = Some x.
Proof.
  intros Hm. unfold deque_append.
  rewrite last_drop.
  - apply last_snoc.
  - rewrite length_app. simpl. lia.
Qed.

Lemma record_cache_operation_last op h d now c :
  last (cache_operations (record_cache_operation op h d now c))
  = Some {| type := op; hit := h; duration_ms := d; timestamp := now |}.
Proof.
  unfold record_cache_operation.
  destruct (drop _ _); simpl; apply last_deque_append; lia.
Qed.

(** C9. Whatever the timed block does (calling the "hit" callback any number
    of times, catching what it raises or not), the callback leaves the
    generator's [hit] variable alone, the [hit] argument that
    [track_cache_operation] hands to [record_cache_operation] is [False],
    and the entry appended to [cache_operations] is a miss. *)
Theorem track_cache_operation_always_miss
    (op : string) (start stop : float) (utcnow : Z) (b : block)
    (c : MetricsCollector) :
  (forall fr, (hit_lambda fr).2 = fr)
  /\ (track_cache_operation op start stop utcnow b c).1.2 = false
  /\ hit <$> last (cache_operations (track_cache_operation op start stop utcnow b c).2)
     = Some false.
Proof.
  split; [reflexivity|].
  unfold track_cache_operation.
  pose proof (run_block_frame b
    {| operation_type := op; start_time := start; hit_var := false |} c) as Hfr.
  destruct (run_block b _ c) as [[outcome fr'] c'].
  simpl in Hfr. subst fr'. simpl. split; [reflexivity|].
  rewrite record_cache_operation_last. reflexivity.
Qed.

End Monitoring.

(* ===================================================================== *)
(** ** Strings: order, width of hex renderings, joins *)
(* ===================================================================== *)

Section Strings.

Lemma ascii_compare_lt_trans (a b c : ascii) :
  Ascii.compare a b = Lt -> Ascii.compare b c = Lt -> Ascii.compare a c = Lt.
Proof.
  unfold Ascii.compare. rewrite !N.compare_lt_iff. lia.
Qed.

Lemma string_leb_cons (c1 c2 : ascii) (s1 s2 : string) :
  String.leb (String c1 s1) (String c2 s2) = true <->
  Ascii.compare c1 c2 = Lt \/ (c1 = c2 /\ String.leb s1 s2 = true).
Proof.
  unfold String.leb. simpl.
  destruct (Ascii.compare c1 c2) eqn:Hc.
  - apply Ascii.compare_eq_iff in Hc. subst. split; [auto|].
    intros [H|[_ H]]; [discriminate|exact H].
  - split; auto.
  - split; [discriminate|]. intros [H|[-> _]]; [discriminate|].
    rewrite Ascii.compare_antisym in Hc.
    destruct (Ascii.compare c2 c2) eqn:Hcc; try discriminate.
    pose proof (Ascii.compare_antisym c2 c2) as Ha. rewrite Hcc in Ha.
    discriminate.
Qed.

Lemma string_leb_trans (a b c : string) :
  String.leb a b = true -> String.leb b c = true -> String.leb a c = true.
Proof.
  revert b c. induction a as [|x a IH]; intros b c Hab Hbc.
  - destruct c; reflexivity.
  - destruct b as [|y b]; [discriminate|].
    destruct c as [|z c]; [discriminate|].
    apply string_leb_cons in Hab, Hbc. apply string_leb_cons.
    destruct Hab as [Hxy|[-> Hab]], Hbc as [Hyz|[-> Hbc]].
    + left. eapply ascii_compare_lt_trans; eassumption.
    + left. exact Hxy.
    + left. exact Hyz.
    + right. split; [reflexivity|]. eapply IH; eassumption.
Qed.

#[global] Instance item_le_trans : Transitive item_le.
Proof. intros x y z. unfold item_le. apply string_leb_trans. Qed.

#[global] Instance item_le_total : Total item_le.
Proof. intros x y. unfold item_le. apply String.leb_total. Qed.

(** In a list without two items of one name, the name decides the item. *)
Lemma item_of_name (kw : kwargs) (x y : string * pyval) :
  NoDup (map fst kw) -> x ∈ kw -> y ∈ kw -> x.1 = y.1 -> x = y.
Proof.
  induction kw as [|z kw IH]; intros Hnd Hx Hy Hxy; [inversion Hx|].
  simpl in Hnd. apply NoDup_cons in Hnd as [Hz Hnd].
  apply elem_of_cons in Hx as [->|Hx]; apply elem_of_cons in Hy as [->|Hy].
  - reflexivity.
  - exfalso. apply Hz. rewrite Hxy. apply list_elem_of_fmap. eauto.
  - exfalso. apply Hz. rewrite <- Hxy. apply list_elem_of_fmap. eauto.
  - apply IH; assumption.
Qed.

(** [sorted(kwargs.items())] does not depend on the order the keyword
    arguments were written in. *)
Lemma sorted_items_permutation (kw1 kw2 : kwargs) :
  NoDup (map fst kw1) -> kw1 ≡ₚ kw2 -> sorted_items kw1 = sorted_items kw2.
Proof.
  intros Hnd Hperm. unfold sorted_items.
  apply (StronglySorted_unique_strong item_le).
  - intros x1 x2 H1 H2 H12 H21.
    rewrite merge_sort_Permutation in H1, H2. rewrite <- Hperm in H2.
    apply (item_of_name kw1); try assumption.
    apply String.leb_antisym; assumption.
  - apply StronglySorted_merge_sort; apply _.
  - apply StronglySorted_merge_sort; apply _.
  - rewrite !merge_sort_Permutation. exact Hperm.
Qed.

Lemma string_length_app (a b : string) :
  String.length (a ++ b) = String.length a + String.length b.
Proof. induction a as [|c a IH]; simpl; [reflexivity|]. rewrite IH. reflexivity. Qed.

Lemma hex_pad_length (len : nat) (n : N) : String.length (hex_pad len n) = len.
Proof.
  revert n. induction len as [|len IH]; intros n; simpl; [reflexivity|].
  rewrite string_length_app, IH. simpl. lia.
Qed.

Lemma concat_fixed_width (w : nat) (parts : list string) :
  Forall (fun s => String.length s = w) parts ->
  String.length (String.concat "" parts) = List.length parts * w.
Proof.
  induction 1 as [|s parts Hs _ IH]; [reflexivity|].
  destruct parts as [|s' parts].
  - simpl. lia.
  - change (String.concat "" (s :: s' :: parts))
      with (s ++ "" ++ String.concat "" (s' :: parts)).
    rewrite !string_length_app, IH, Hs. simpl. lia.
Qed.

Lemma le_bytes_length (n : nat) (x : N) : List.length (hashlib.le_bytes n x) = n.
Proof. revert x. induction n as [|n IH]; intros x; simpl; [|rewrite IH]; reflexivity. Qed.

(** A hex digest has 32 characters, whatever was hashed. *)
Lemma md5_hexdigest_length (data : list N) :
  String.length (hashlib.md5_hexdigest data) = 32.
Proof.
  unfold hashlib.md5_hexdigest.
  rewrite (concat_fixed_width 2).
  - rewrite length_map. unfold hashlib.md5_digest.
    rewrite !length_app, !le_bytes_length. reflexivity.
  - apply Forall_forall. intros s Hs.
    apply list_elem_of_fmap in Hs as [b [-> _]]. apply hex_pad_length.
Qed.

Lemma substring_length (n : nat) (s : string) :
  n <= String.length s -> String.length (substring 0 n s) = n.
Proof.
  revert s. induction n as [|n IH]; intros s Hn.
  - destruct s; reflexivity.
  - destruct s as [|c s]; simpl in *; [lia|]. rewrite IH by lia. reflexivity.
Qed.

(** *** str of a UUID *)

Lemma string_app_inj_length (a b c d : string) :
  String.length a = String.length c -> a ++ b = c ++ d -> a = c /\ b = d.
Proof.
  revert c. induction a as [|x a IH]; intros [|y c] Hlen Heq;
    simpl in *; try discriminate.
  - split; [reflexivity|exact Heq].
  - injection Heq as -> Heq. destruct (IH c) as [-> ->]; [lia|exact Heq|].
    split; reflexivity.
Qed.

Lemma hex_digit_inj (d e : N) :
  (d < 16)%N -> (e < 16)%N -> hex_digit d = hex_digit e -> d = e.
Proof.
  intros Hd He Heq. apply (f_equal N_of_ascii) in Heq. revert Heq.
  unfold hex_digit.
  destruct (N.ltb_spec d 10), (N.ltb_spec e 10);
    rewrite !N_ascii_embedding by lia; lia.
Qed.

Lemma hex_pad_inj (len : nat) (n m : N) :
  hex_pad len n = hex_pad len m ->
  (n mod 16 ^ N.of_nat len = m mod 16 ^ N.of_nat len)%N.
Proof.
  revert n m. induction len as [|len IH]; intros n m Heq.
  - simpl. rewrite !N.mod_1_r. reflexivity.
  - simpl in Heq.
    apply string_app_inj_length in Heq as [Hhi Hlo];
      [|rewrite !hex_pad_length; reflexivity].
    injection Hlo as Hlo.
    apply hex_digit_inj in Hlo; [|apply N.mod_lt; lia..].
    apply IH in Hhi.
    rewrite Nat2N.inj_succ, N.pow_succ_r'.
    rewrite !N.Div0.mod_mul_r. rewrite Hhi, Hlo. reflexivity.
Qed.

(** The 32 hex digits with the four dashes put in. *)
Definition dashed (hex : string) : string :=
  py_slice hex 0 8 ++ "-" ++ py_slice hex 8 12 ++ "-" ++ py_slice hex 12 16
    ++ "-" ++ py_slice hex 16 20 ++ "-" ++ py_slice hex 20 32.

(** ... and taken out again. *)
Definition undashed (s : string) : string :=
  py_slice s 0 8 ++ py_slice s 9 13 ++ py_slice s 14 18 ++ py_slice s 19 23
    ++ py_slice s 24 36.

Lemma undashed_dashed (hex : string) :
  String.length hex = 32 -> undashed (dashed hex) = hex.
Proof.
  intros Hlen.
  do 32 (destruct hex as [|? hex]; [discriminate Hlen|]).
  destruct hex; [reflexivity|discriminate Hlen].
Qed.

Lemma dashed_length (hex : string) :
  String.length hex = 32 -> String.length (dashed hex) = 36.
Proof.
  intros Hlen.
  do 32 (destruct hex as [|? hex]; [discriminate Hlen|]).
  destruct hex; [reflexivity|discriminate Hlen].
Qed.

Lemma uuid_str_length (u : UUID) : String.length (uuid_str u) = 36.
Proof. apply dashed_length, hex_pad_length. Qed.

(** [str] tells UUIDs apart. *)
Lemma uuid_str_inj (u v : UUID) : uuid_str u = uuid_str v -> u = v.
Proof.
  intros Heq. apply uuid_eq.
  assert (Hhex : hex_pad 32 (uuid_int u) = hex_pad 32 (uuid_int v)).
  { rewrite <- (undashed_dashed (hex_pad 32 (uuid_int u))) by apply hex_pad_length.
    rewrite <- (undashed_dashed (hex_pad 32 (uuid_int v))) by apply hex_pad_length.
    f_equal. exact Heq. }
  apply hex_pad_inj in Hhex.
  pose proof (uuid_range u) as Hu. pose proof (uuid_range v) as Hv.
  apply N.ltb_lt in Hu, Hv.
  change (16 ^ N.of_nat 32)%N with (2 ^ 128)%N in Hhex.
  rewrite !N.mod_small in Hhex by assumption. exact Hhex.
Qed.

(** *** Joins of pieces of one width *)

Lemma join_fixed_width_inj (sep : string) (w : nat) (xs ys : list string) :
  0 < w ->
  Forall (fun s => String.length s = w) xs ->
  Forall (fun s => String.length s = w) ys ->
  join sep xs = join sep ys -> xs = ys.
Proof.
  intros Hw Hxs. revert ys.
  induction Hxs as [|x xs Hx Hxs IH]; intros ys Hys Heq.
  - destruct Hys as [|y ys Hy Hys]; [reflexivity|].
    exfalso. apply (f_equal String.length) in Heq.
    destruct ys; simpl in Heq; [|rewrite string_length_app in Heq]; lia.
  - destruct Hys as [|y ys Hy Hys].
    + exfalso. apply (f_equal String.length) in Heq.
      destruct xs; simpl in Heq; [|rewrite string_length_app in Heq]; lia.
    + unfold join in *.
      destruct xs as [|x' xs], ys as [|y' ys].
      * simpl in Heq. subst. reflexivity.
      * exfalso. apply (f_equal String.length) in Heq.
        change (String.concat sep (y :: y' :: ys))
          with (y ++ sep ++ String.concat sep (y' :: ys)) in Heq.
        inversion Hys; subst.
        simpl String.concat at 1 in Heq.
        rewrite !string_length_app in Heq.
        assert (0 < String.length (String.concat sep (y' :: ys))).
        { destruct ys; simpl; [|rewrite string_length_app]; lia. }
        lia.
      * exfalso. apply (f_equal String.length) in Heq.
        change (String.concat sep (x :: x' :: xs))
          with (x ++ sep ++ String.concat sep (x' :: xs)) in Heq.
        inversion Hxs; subst.
        simpl String.concat at 2 in Heq.
        rewrite !string_length_app in Heq.
        assert (0 < String.length (String.concat sep (x' :: xs))).
        { destruct xs; simpl; [|rewrite string_length_app]; lia. }
        lia.
      * change (String.concat sep (x :: x' :: xs))
          with (x ++ sep ++ String.concat sep (x' :: xs)) in Heq.
        change (String.concat sep (y :: y' :: ys))
          with (y ++ sep ++ String.concat sep (y' :: ys)) in Heq.
        apply string_app_inj_length in Heq as [-> Heq]; [|lia].
        apply String.app_inj in Heq.
        f_equal. apply IH; assumption.
Qed.

End Strings.

(* ===================================================================== *)
(** ** The cache service *)
(* ===================================================================== *)

Section CacheService.
Import cache_service.

Variable json_loads : string -> option pyval.

(** Neither [search_ttl] nor [company_ttl] is an attribute of the object,
    whatever its three attributes hold. *)
Lemma getattr_search_ttl (self : CacheService) :
  getattr self "search_ttl" = Raise (AttributeError "CacheService" "search_ttl").
Proof. reflexivity. Qed.

Lemma getattr_company_ttl (self : CacheService) :
  getattr self "company_ttl" = Raise (AttributeError "CacheService" "company_ttl").
Proof. reflexivity. Qed.

(** The TTL registered for search results is there, under [ttl_config]. *)
Lemma ttl_config_search : ttl_config __init__ !! "search" = Some 180%Z.
Proof. reflexivity. Qed.

Lemma invalidate_job_caches_returns_None (self : CacheService) :
  (invalidate_job_caches self).1.1 = Ok PyNone.
Proof.
  destruct self as [[server|] t k]; [|reflexivity].
  unfold invalidate_job_caches, run, try_except, io_bind, query, update,
    redis.keys, redis.delete, redis.guarded. simpl.
  destruct (redis.fault server) eqn:Hfault; simpl; [reflexivity|].
  destruct (filter _ _); simpl; [reflexivity|].
  rewrite Hfault. simpl. reflexivity.
Qed.

(** C5. With a client connected, to whatever server, [set_job_search_results]
    stops at [self.search_ttl]: it returns [False], prints the
    [AttributeError] and leaves the server as it was, so nothing is written
    under any expiry (the 180 seconds of [ttl_config["search"]] are never
    read), and a [get_job_search_results] after it answers what it would
    have answered before it. *)
Theorem set_job_search_results_writes_nothing
    (results : list pyval) (p : search_params) (utcnow : string)
    (server : redis.Redis) (ttl : gmap string Z) (patterns : gmap string string) :
  let self := {| redis_client := Some server; ttl_config := ttl;
                 key_patterns := patterns |} in
  set_job_search_results results p utcnow self
  = (Ok false, self,
     [CacheSetError (AttributeError "CacheService" "search_ttl")])
  /\ get_job_search_results json_loads p
       (set_job_search_results results p utcnow self).1.2
     = get_job_search_results json_loads p self.
Proof.
  intros self. split; reflexivity.
Qed.

(** At the failing input: a healthy, empty server at time 0, the default
    parameters, an empty result list. The call returns [False], the server
    is still empty and the read that follows is a miss. *)
Example set_then_get_misses :
  let server := redis.mkRedis ∅ 0 None in
  let self := connect server __init__ in
  let '(returned, self', _) :=
    set_job_search_results [] default_params "2024-01-01T00:00:00" self in
  returned = Ok false
  /\ redis_client self' = Some server
  /\ (get_job_search_results json_loads default_params self').1.1 = Ok None.
Proof. vm_compute. repeat split. Qed.

(** The same slip in [set_company_data]. *)
Lemma set_company_data_writes_nothing
    (company_id : string) (data : pyval) (server : redis.Redis)
    (ttl : gmap string Z) (patterns : gmap string string) :
  let self := {| redis_client := Some server; ttl_config := ttl;
                 key_patterns := patterns |} in
  set_company_data company_id data self
  = (Ok false, self,
     [CacheSetErrorCompany company_id
        (AttributeError "CacheService" "company_ttl")]).
Proof. reflexivity. Qed.

(** C6. Fail-open. With no client connected, the three operations return at
    once: [get] a miss, [set] [False], [invalidate] nothing, with the
    service untouched and nothing printed. With a client whose server
    raises on every command, [get] and [invalidate] catch what the command
    raised, print it and return the same values ([set] has stopped before
    it reaches the server). And whatever the state of the server, none of
    the three raises to its caller. *)
Theorem cache_operations_fail_open
    (results : list pyval) (p : search_params) (utcnow : string)
    (ttl : gmap string Z) (patterns : gmap string string) :
  (let self := {| redis_client := None; ttl_config := ttl;
                  key_patterns := patterns |} in
   get_job_search_results json_loads p self = (Ok None, self, [])
   /\ set_job_search_results results p utcnow self = (Ok false, self, [])
   /\ invalidate_job_caches self = (Ok PyNone, self, []))
  /\ (forall (entries : gmap string (string * Z)) (now : Z) (e : redis_error),
       let self := {| redis_client := Some (redis.mkRedis entries now (Some e));
                      ttl_config := ttl; key_patterns := patterns |} in
       get_job_search_results json_loads p self
       = (Ok None, self, [CacheGetError (RedisError e)])
       /\ (set_job_search_results results p utcnow self).1
          = (Ok false, self)
       /\ invalidate_job_caches self
          = (Ok PyNone, self, [CacheInvalidationError (RedisError e)]))
  /\ (forall self : CacheService,
       (exists v, (get_job_search_results json_loads p self).1.1 = Ok v)
       /\ (exists b, (set_job_search_results results p utcnow self).1.1 = Ok b)
       /\ (invalidate_job_caches self).1.1 = Ok PyNone).
Proof.
  split; [repeat split|]. split; [intros; repeat split|].
  intros [[server|] t k]; [|repeat split; eauto].
  split; [|split].
  - unfold get_job_search_results, run, try_except, io_bind, query, redis.get,
      redis.guarded, loads. simpl.
    destruct (redis.fault server); simpl; [eauto|].
    destruct (truthy _); simpl; [|eauto].
    destruct (json_loads _); simpl; eauto.
  - eexists. reflexivity.
  - apply invalidate_job_caches_returns_None.
Qed.

(** *** The key builder *)

(** C8. For keyword arguments with pairwise different names (they are a
    dict), [_generate_cache_key] gives the same key for every order the
    arguments are written in; the key is [jobquest:], the prefix, a colon
    and a hash of exactly 8 characters, the head of the MD5 hex digest of
    the JSON text of the items sorted by name. *)
Theorem generate_cache_key_order_independent
    (prefix : string) (kw1 kw2 : kwargs) :
  NoDup (map fst kw1) ->
  kw1 ≡ₚ kw2 ->
  _generate_cache_key prefix kw1 = _generate_cache_key prefix kw2
  /\ exists hash : string,
       _generate_cache_key prefix kw1 = "jobquest:" ++ prefix ++ ":" ++ hash
       /\ String.length hash = 8
       /\ hash = py_slice
                   (hashlib.md5_hexdigest
                      (encode (json.dumps true
                                 (json.of_items (sorted_items kw1))))) 0 8
       /\ StronglySorted item_le (sorted_items kw1)
       /\ sorted_items kw1 ≡ₚ kw1.
Proof.
  intros Hnd Hperm. split.
  - unfold _generate_cache_key.
    rewrite (sorted_items_permutation kw1 kw2 Hnd Hperm). reflexivity.
  - eexists. split; [reflexivity|]. split; [|split; [reflexivity|split]].
    + unfold py_slice. apply substring_length.
      rewrite md5_hexdigest_length. simpl. lia.
    + apply StronglySorted_merge_sort; apply _.
    + apply merge_sort_Permutation.
Qed.

(** The arguments of a job search with the defaults, written in the order
    of the source and in the opposite order. *)
Lemma generate_cache_key_order_independent_witness :
  let kw := search_kwargs default_params in
  NoDup (map fst kw)
  /\ kw ≡ₚ reverse kw
  /\ _generate_cache_key "jobs" kw = _generate_cache_key "jobs" (reverse kw)
  /\ _generate_cache_key "jobs" kw = "jobquest:jobs:c505685c".
Proof.
  intros kw.
  assert (Hnd : NoDup (map fst kw)) by (apply (bool_decide_unpack _); vm_compute; exact I).
  assert (Hperm : kw ≡ₚ reverse kw) by (symmetry; apply reverse_Permutation).
  split; [exact Hnd|]. split; [exact Hperm|].
  split.
  - exact (proj1 (generate_cache_key_order_independent "jobs" kw (reverse kw)
                    Hnd Hperm)).
  - vm_compute. reflexivity.
Defined.

(** *** Invalidation *)

Definition literal (c : ascii) : Prop := c <> "*"%char /\ c <> "?"%char.

Lemma glob_star (s : list ascii) : redis.glob ["*"%char] s = true.
Proof.
  induction s as [|c s IH]; [reflexivity|].
  simpl in *. exact IH.
Qed.

(** A pattern made of literal characters and a final [*] matches the keys
    that start with the literal part. *)
Lemma glob_literal_star (lit s : list ascii) :
  Forall literal lit ->
  redis.glob (lit ++ ["*"%char]) s = true <-> exists rest, s = (lit ++ rest)%list.
Proof.
  intros Hlit. revert s. induction Hlit as [|c lit [Hstar Hq] _ IH]; intros s.
  - simpl app. rewrite glob_star. split; [eauto|reflexivity].
  - change ((c :: lit) ++ ["*"%char])%list with (c :: (lit ++ ["*"%char]))%list.
    cbn [redis.glob].
    destruct (Ascii.eqb_spec c "*"); [contradiction|].
    destruct (Ascii.eqb_spec c "?"); [contradiction|].
    destruct s as [|d s].
    + split; [discriminate|]. intros [rest Hrest]. discriminate.
    + simpl orb. destruct (Ascii.eqb_spec c d) as [->|Hne]; simpl andb.
      * rewrite IH. split; intros [rest Hrest]; exists rest.
        -- rewrite Hrest. reflexivity.
        -- simpl in Hrest. injection Hrest as Hrest. exact Hrest.
      * split; [discriminate|]. intros [rest Hrest]. simpl in Hrest.
        injection Hrest as Hd _. congruence.
Qed.

Lemma list_ascii_of_string_app (a b : string) :
  list_ascii_of_string (a ++ b)
  = (list_ascii_of_string a ++ list_ascii_of_string b)%list.
Proof. induction a as [|c a IH]; simpl; [reflexivity|]. rewrite IH. reflexivity. Qed.

(** The one pattern [invalidate_job_caches] uses matches the keys that
    [_generate_cache_key "jobs"] builds, and the other keys that start the
    same way. *)
Lemma matches_jobs_pattern (k : string) :
  redis.matches "jobquest:jobs:*" k = true
  <-> exists rest, k = "jobquest:jobs:" ++ rest.
Proof.
  unfold redis.matches.
  change (list_ascii_of_string "jobquest:jobs:*")
    with (list_ascii_of_string "jobquest:jobs:" ++ ["*"%char])%list.
  rewrite glob_literal_star.
  - split; intros [rest Hrest].
    + exists (string_of_list_ascii rest).
      rewrite <- (string_of_list_ascii_of_string k), Hrest.
      rewrite <- (list_ascii_of_string_of_list_ascii rest) at 1.
      rewrite <- list_ascii_of_string_app.
      apply string_of_list_ascii_of_string.
    + exists (list_ascii_of_string rest).
      rewrite Hrest. apply list_ascii_of_string_app.
  - simpl. repeat constructor; discriminate.
Qed.

(** One step of [DEL]. *)
Definition delete_step (r : redis.Redis) (acc : Z * redis.Redis) (k : string)
  : Z * redis.Redis :=
  match redis.live acc.2 k with
  | Some _ =>
    ((acc.1 + 1)%Z,
     {| redis.entries := base.delete k (redis.entries acc.2);
        redis.now := redis.now r; redis.fault := redis.fault r |})
  | None => acc
  end.

Lemma delete_fold_live (r : redis.Redis) (names : list string) :
  forall acc : Z * redis.Redis,
    redis.now acc.2 = redis.now r ->
    forall k,
      redis.live (foldl (delete_step r) acc names).2 k
      = if decide (k ∈ names) then None else redis.live acc.2 k.
Proof.
  induction names as [|n names IH]; intros acc Hnow k.
  - rewrite decide_False by apply not_elem_of_nil. reflexivity.
  - simpl foldl.
    assert (Hnow' : redis.now (delete_step r acc n).2 = redis.now r).
    { unfold delete_step. destruct (redis.live _ _); [reflexivity|exact Hnow]. }
    rewrite (IH _ Hnow' k).
    destruct (decide (k ∈ names)) as [Hin|Hnin].
    + rewrite decide_True by (right; exact Hin). reflexivity.
    + destruct (decide (k = n)) as [->|Hne].
      * rewrite decide_True by left.
        unfold delete_step. destruct (redis.live acc.2 n) eqn:Hl; [|exact Hl].
        unfold redis.live. simpl. rewrite lookup_delete_eq. reflexivity.
      * rewrite decide_False by (intros Hin; apply Hnin;
          inversion Hin; [contradiction|assumption]).
        unfold delete_step. destruct (redis.live acc.2 n) eqn:Hl; [|reflexivity].
        unfold redis.live. simpl. rewrite lookup_delete_ne by congruence.
        rewrite Hnow. reflexivity.
Qed.

(** The keys [KEYS pattern] lists are the live ones that match. *)
Lemma keys_spec (pattern : string) (r : redis.Redis) (ks : list string) (k : string) :
  redis.keys pattern r = Ok ks ->
  k ∈ ks <-> is_Some (redis.live r k) /\ redis.matches pattern k = true.
Proof.
  unfold redis.keys, redis.guarded. destruct (redis.fault r); [discriminate|].
  intros [= <-]. rewrite list_elem_of_filter. split; [tauto|].
  intros [Hlive Hm]. split; [tauto|].
  unfold redis.live in Hlive.
  destruct (redis.entries r !! k) as [v|] eqn:Hk; [|destruct Hlive; discriminate].
  apply list_elem_of_fmap. exists (k, v). split; [reflexivity|].
  apply elem_of_map_to_list. exact Hk.
Qed.

(** C7, as the spec has it, fails: on a server that holds one job-search
    entry the call removes that one key and prints the count, but what it
    returns is [None], not 1. *)
Lemma invalidate_job_caches_returns_no_count :
  let server :=
    redis.mkRedis {["jobquest:jobs:c505685c" := ("[]", 180%Z)]} 0 None in
  let self := connect server __init__ in
  let '(returned, self', out) := invalidate_job_caches self in
  redis.keys "jobquest:jobs:*" server = Ok ["jobquest:jobs:c505685c"]
  /\ redis.keys "*" <$> redis_client self' = Some (Ok [])
  /\ out = [InvalidatedJobSearch 1]
  /\ returned = Ok PyNone
  /\ returned <> Ok (PyInt 1).
Proof. vm_compute. repeat split; discriminate. Qed.

(** C7, amended. [invalidate_job_caches] takes no namespace: it works on the
    keys that match [jobquest:jobs:*], the live keys starting with
    [jobquest:jobs:]. On a healthy server it deletes exactly those, leaves
    every other key as it was, prints their number when there is one at
    least, and returns [None]; in every state of the service it returns
    [None] and raises nothing. *)
Theorem invalidate_job_caches_effect
    (entries : gmap string (string * Z)) (now : Z)
    (ttl : gmap string Z) (patterns : gmap string string) :
  let server := redis.mkRedis entries now None in
  let self := {| redis_client := Some server; ttl_config := ttl;
                 key_patterns := patterns |} in
  (forall any : CacheService, (invalidate_job_caches any).1.1 = Ok PyNone)
  /\ exists (server' : redis.Redis) (job_keys : list string),
       invalidate_job_caches self
       = (Ok PyNone, with_client self (Some server'),
          match job_keys with
          | [] => []
          | _ :: _ => [InvalidatedJobSearch (List.length job_keys)]
          end)
       /\ (forall k, k ∈ job_keys <->
              is_Some (redis.live server k)
              /\ exists rest, k = "jobquest:jobs:" ++ rest)
       /\ (forall k, redis.live server' k
              = if decide (k ∈ job_keys) then None else redis.live server k).
Proof.
  intros server self. split; [apply invalidate_job_caches_returns_None|].
  destruct (redis.keys "jobquest:jobs:*" server) as [job_keys|e] eqn:Hkeys;
    [|discriminate].
  assert (Hspec : forall k, k ∈ job_keys <->
            is_Some (redis.live server k)
            /\ exists rest, k = "jobquest:jobs:" ++ rest).
  { intros k. rewrite (keys_spec _ _ _ k Hkeys), matches_jobs_pattern.
    reflexivity. }
  unfold invalidate_job_caches, run, try_except, io_bind, query, update.
  cbn [redis_client self]. rewrite Hkeys.
  destruct job_keys as [|k0 ks].
  - exists server, []. split; [reflexivity|]. split; [exact Hspec|].
    intros k. rewrite decide_False by apply not_elem_of_nil. reflexivity.
  - exists (foldl (delete_step server) (0%Z, server) (k0 :: ks)).2, (k0 :: ks).
    split; [|split; [exact Hspec|]].
    + unfold redis.delete, redis.guarded. cbn [redis.fault server bind].
      reflexivity.
    + intros k. apply delete_fold_live. reflexivity.
Qed.

End CacheService.

(* ===================================================================== *)
(** ** The list loaders *)
(* ===================================================================== *)

Section ListLoaders.
Import dataloaders.

Context {Entity : Type}.
Variable entity_id : Entity -> UUID.
Variable loader_key : string.

Abbreviation Loader := (BaseDataLoader Entity).
Abbreviation cache_key_of := (dataloaders.cache_key_of loader_key).
Abbreviation load_many_start := (dataloaders.load_many_start loader_key).
Abbreviation _execute_batch_resume :=
  (dataloaders._execute_batch_resume entity_id loader_key).
Abbreviation load_many := (dataloaders.load_many entity_id loader_key).
Abbreviation load := (dataloaders.load entity_id loader_key).
Abbreviation tick := (dataloaders.tick loader_key).
Abbreviation gather := (dataloaders.gather entity_id loader_key).
Abbreviation run_sequential := (dataloaders.run_sequential entity_id loader_key).

(** Two key lists have the same cache key only if they are the same list. *)
Lemma cache_key_of_inj (ks1 ks2 : list UUID) :
  cache_key_of ks1 = cache_key_of ks2 -> ks1 = ks2.
Proof.
  unfold dataloaders.cache_key_of. intros Heq.
  apply String.app_inj in Heq. apply String.app_inj in Heq.
  apply (join_fixed_width_inj "," 36) in Heq.
  - revert ks2 Heq. induction ks1 as [|k ks1 IH]; intros [|k' ks2] Heq;
      try discriminate; [reflexivity|].
    pose proof (f_equal (hd EmptyString) Heq) as Hk.
    pose proof (f_equal (@tl string) Heq) as Htl.
    cbn [map hd tl] in Hk, Htl.
    apply uuid_str_inj in Hk. subst. f_equal. apply IH, Htl.
  - lia.
  - apply Forall_forall. intros s Hs.
    apply list_elem_of_fmap in Hs as [u [-> _]]. apply uuid_str_length.
  - apply Forall_forall. intros s Hs.
    apply list_elem_of_fmap in Hs as [u [-> _]]. apply uuid_str_length.
Qed.

(** What the fetcher answers for [ids] on the rows [rows]. *)
Definition answers (rows : list Entity) (ids : list UUID) : list (option Entity) :=
  map (fun i => id_map entity_id (filter (fun e => entity_id e ∈ ids) rows) !! i)
      ids.

(** The row the fetcher's map holds for an id: the last row of the table
    with that id, [None] when there is none. *)
Definition row_of (rows : list Entity) (id : UUID) : option Entity :=
  last (filter (fun e => entity_id e = id) rows).

Lemma id_map_snoc (l : list Entity) (e : Entity) :
  id_map entity_id (l ++ [e]) = <[entity_id e := e]> (id_map entity_id l).
Proof. unfold id_map. rewrite foldl_app. reflexivity. Qed.

Lemma id_map_lookup (l : list Entity) (id : UUID) :
  id_map entity_id l !! id = last (filter (fun e => entity_id e = id) l).
Proof.
  induction l as [|e l IH] using rev_ind.
  - reflexivity.
  - rewrite id_map_snoc, filter_app. simpl.
    destruct (decide (entity_id e = id)) as [<-|Hne].
    + rewrite lookup_insert_eq.
      rewrite filter_cons_True by reflexivity. rewrite filter_nil.
      symmetry. apply last_snoc.
    + rewrite lookup_insert_ne by exact Hne.
      rewrite filter_cons_False by exact Hne. rewrite filter_nil, app_nil_r.
      exact IH.
Qed.

Lemma filter_filter_id (rows : list Entity) (ids : list UUID) (id : UUID) :
  id ∈ ids ->
  filter (fun e => entity_id e = id) (filter (fun e => entity_id e ∈ ids) rows)
  = filter (fun e => entity_id e = id) rows.
Proof.
  intros Hin. induction rows as [|e rows IH]; [reflexivity|].
  destruct (decide (entity_id e = id)) as [Heq|Hne].
  - rewrite (filter_cons_True (fun e => entity_id e ∈ ids)) by (rewrite Heq; exact Hin).
    rewrite !filter_cons_True by exact Heq. rewrite IH. reflexivity.
  - rewrite (filter_cons_False (fun e => entity_id e = id)) by exact Hne.
    destruct (decide (entity_id e ∈ ids)).
    + rewrite (filter_cons_True (fun e => entity_id e ∈ ids)) by assumption.
      rewrite filter_cons_False by exact Hne. exact IH.
    + rewrite (filter_cons_False (fun e => entity_id e ∈ ids)) by assumption.
      exact IH.
Qed.

Lemma row_of_absent (rows : list Entity) (id : UUID) :
  (forall e, e ∈ rows -> entity_id e <> id) -> row_of rows id = None.
Proof.
  unfold row_of. induction rows as [|e rows IH]; intros H; [reflexivity|].
  rewrite filter_cons_False by (apply H; left).
  apply IH. intros e' He'. apply H. right. exact He'.
Qed.

(** The fetcher's answer, position by position. *)
Lemma answers_row_of (rows : list Entity) (ids : list UUID) :
  answers rows ids = map (row_of rows) ids.
Proof.
  unfold answers, row_of. apply map_ext_in. intros id Hin.
  rewrite id_map_lookup. rewrite filter_filter_id; [reflexivity|].
  apply list_elem_of_In. exact Hin.
Qed.

(** *** States a request can reach *)

(** What the event loop does to the loader, one step at a time: it starts a
    call (up to the call's first suspension) or resumes a coroutine that
    waits for the rows of [keys]. Calls awaited in a row and calls gathered
    are such sequences. *)
Inductive event :=
  | Start (c : call)
  | Resume (keys : list UUID).

Definition step (self : Loader) (ev : event) : Loader :=
  match ev with
  | Start c => (load_many_start (call_ids c) self).2
  | Resume keys => (_execute_batch_resume keys self).2
  end.

Definition run_events (history : list event) (self : Loader) : Loader :=
  foldl step self history.

(** Every memo entry under the cache key of a key list is the fetcher's
    answer for that list on the rows of the table. *)
Definition memo_sound (rows : list Entity) (self : Loader) : Prop :=
  table (db_session self) = rows
  /\ forall keys r, _cache self !! cache_key_of keys = Some r ->
                    r = answers rows keys.

Lemma memo_sound_init (rows : list Entity) (log : list (list UUID)) :
  memo_sound rows (__init__ (mkSession rows log)).
Proof. split; [reflexivity|]. intros keys r. simpl. rewrite lookup_empty. discriminate. Qed.

Lemma load_many_start_cache (ids : list UUID) (self : Loader) :
  _cache (load_many_start ids self).2 = _cache self
  /\ table (db_session (load_many_start ids self).2) = table (db_session self).
Proof.
  unfold dataloaders.load_many_start, dataloaders._execute_batch_start.
  destruct ids; [split; reflexivity|].
  destruct (_cache self !! _); split; reflexivity.
Qed.

Lemma memo_sound_start (rows : list Entity) (ids : list UUID) (self : Loader) :
  memo_sound rows self -> memo_sound rows (load_many_start ids self).2.
Proof.
  intros [Htab Hmemo]. destruct (load_many_start_cache ids self) as [Hc Ht].
  split; [rewrite Ht; exact Htab|]. rewrite Hc. exact Hmemo.
Qed.

Lemma memo_sound_resume (rows : list Entity) (keys : list UUID) (self : Loader) :
  memo_sound rows self -> memo_sound rows (_execute_batch_resume keys self).2.
Proof.
  intros [Htab Hmemo]. split; [exact Htab|].
  intros keys' r. simpl.
  destruct (decide (cache_key_of keys = cache_key_of keys')) as [Heq|Hne].
  - rewrite Heq, lookup_insert_eq. intros [= <-].
    apply cache_key_of_inj in Heq. subst keys'.
    unfold dataloaders._batch_load_recv, dataloaders.scalars_all, answers.
    rewrite Htab. reflexivity.
  - rewrite lookup_insert_ne by exact Hne. apply Hmemo.
Qed.

Lemma memo_sound_events (rows : list Entity) (history : list event) (self : Loader) :
  memo_sound rows self -> memo_sound rows (run_events history self).
Proof.
  revert self. induction history as [|ev history IH]; intros self H; [exact H|].
  simpl. apply IH. destruct ev; [apply memo_sound_start|apply memo_sound_resume];
    exact H.
Qed.

(** In a sound state, [load_many] answers as the fetcher would, from the memo
    or from the table. *)
Lemma load_many_sound (rows : list Entity) (ids : list UUID) (self : Loader) :
  memo_sound rows self -> (load_many ids self).1 = answers rows ids.
Proof.
  intros [Htab Hmemo]. unfold dataloaders.load_many, dataloaders.load_many_start,
    dataloaders._execute_batch_start.
  destruct ids as [|i ids]; [reflexivity|].
  destruct (_cache self !! cache_key_of (i :: ids)) as [r|] eqn:Hc; simpl.
  - apply Hmemo. exact Hc.
  - unfold dataloaders._batch_load_recv, dataloaders.scalars_all, answers. simpl.
    rewrite Htab. reflexivity.
Qed.

(** C3. In every state a request can bring the loader to, [load_many(ids)]
    returns one result per requested id, in the order of [ids]: at each
    position the row the fetcher's map holds for the id at that position,
    so that two positions with the same id get the same value and an id
    with no row in the table gets [None]. *)
Theorem load_many_positional
    (rows : list Entity) (history : list event) (ids : list UUID) :
  let self := run_events history (__init__ (mkSession rows [])) in
  let results := (load_many ids self).1 in
  results = map (row_of rows) ids
  /\ List.length results = List.length ids
  /\ (forall i id, ids !! i = Some id -> results !! i = Some (row_of rows id))
  /\ (forall i j id, ids !! i = Some id -> ids !! j = Some id ->
        results !! i = results !! j)
  /\ (forall i id, ids !! i = Some id ->
        (forall e, e ∈ rows -> entity_id e <> id) ->
        results !! i = Some None).
Proof.
  intros self results.
  assert (Hres : results = map (row_of rows) ids).
  { unfold results. rewrite (load_many_sound rows).
    - apply answers_row_of.
    - apply memo_sound_events, memo_sound_init. }
  assert (Hpos : forall i id, ids !! i = Some id ->
                   results !! i = Some (row_of rows id)).
  { intros i id Hi. rewrite Hres.
    change (map (row_of rows) ids) with (row_of rows <$> ids).
    rewrite list_lookup_fmap, Hi. reflexivity. }
  split; [exact Hres|]. split; [rewrite Hres; apply length_map|].
  split; [exact Hpos|]. split.
  - intros i j id Hi Hj. rewrite (Hpos i id Hi), (Hpos j id Hj). reflexivity.
  - intros i id Hi Habsent. rewrite (Hpos i id Hi). f_equal.
    apply row_of_absent. exact Habsent.
Qed.

(** *** The memo is per key list *)

Lemma memo_kept (rows : list Entity) (history : list event) (self : Loader)
    (ids : list UUID) (r : list (option Entity)) :
  memo_sound rows self ->
  _cache self !! cache_key_of ids = Some r ->
  _cache (run_events history self) !! cache_key_of ids = Some r.
Proof.
  revert self. induction history as [|ev history IH]; intros self Hs Hc;
    [exact Hc|].
  simpl. apply IH.
  - destruct ev; [apply memo_sound_start|apply memo_sound_resume]; exact Hs.
  - destruct ev as [c|keys]; simpl.
    + rewrite (proj1 (load_many_start_cache _ _)). exact Hc.
    + destruct (decide (cache_key_of keys = cache_key_of ids)) as [Heq|Hne].
      * rewrite Heq, lookup_insert_eq. f_equal.
        apply cache_key_of_inj in Heq. subst keys.
        destruct Hs as [Htab Hmemo]. rewrite (Hmemo _ _ Hc).
        unfold dataloaders._batch_load_recv, dataloaders.scalars_all, answers.
        rewrite Htab. reflexivity.
      * rewrite lookup_insert_ne by exact Hne. exact Hc.
Qed.

Lemma load_many_memoized (rows : list Entity) (ids : list UUID)
    (r : list (option Entity)) (self : Loader) :
  memo_sound rows self ->
  _cache self !! cache_key_of ids = Some r -> load_many ids self = (r, self).
Proof.
  intros [_ Hmemo] Hc. unfold dataloaders.load_many, dataloaders.load_many_start,
    dataloaders._execute_batch_start.
  destruct ids as [|i ids].
  - rewrite (Hmemo _ _ Hc). reflexivity.
  - rewrite Hc. reflexivity.
Qed.

(** After [load_many(ids)] with a list that is not empty, the memo holds the
    result under the cache key of the list. *)
Lemma load_many_memoizes (ids : list UUID) (self : Loader) :
  ids <> [] ->
  _cache (load_many ids self).2 !! cache_key_of ids = Some (load_many ids self).1.
Proof.
  intros Hne. unfold dataloaders.load_many, dataloaders.load_many_start,
    dataloaders._execute_batch_start.
  destruct ids as [|i ids]; [contradiction|].
  destruct (_cache self !! cache_key_of (i :: ids)) as [r|] eqn:Hc; simpl.
  - exact Hc.
  - apply lookup_insert_eq.
Qed.

Lemma memo_sound_load_many (rows : list Entity) (ids : list UUID) (self : Loader) :
  memo_sound rows self -> memo_sound rows (load_many ids self).2.
Proof.
  intros Hs. unfold dataloaders.load_many.
  pose proof (memo_sound_start rows ids self Hs) as Hstart.
  destruct (load_many_start ids self) as [[r|keys] self']; simpl in *.
  - exact Hstart.
  - apply memo_sound_resume. exact Hstart.
Qed.

(** C1, amended. The memo is keyed by the whole key list. Once
    [load_many(ids)] has returned, every later [load_many] with the same
    list, whatever the loader did in between, returns the same value and
    leaves the loader as it is (no fetch). In particular two [load(k)] in a
    row on a new loader return the same value with one fetch. An id asked
    for as part of another list is fetched again with that list. *)
Theorem load_many_memo_per_key_list
    (rows : list Entity) (before after : list event) (ids : list UUID)
    (k : UUID) :
  let new := __init__ (mkSession rows []) in
  let self := run_events before new in
  let later := run_events after (load_many ids self).2 in
  load_many ids later = ((load_many ids self).1, later)
  /\ (load k (load k new).2).1 = (load k new).1
  /\ fetches (load k (load k new).2).2 = [[k]].
Proof.
  intros new self later.
  assert (Hself : memo_sound rows self)
    by apply memo_sound_events, memo_sound_init.
  split; [|split].
  - destruct ids as [|i ids]; [reflexivity|].
    apply (load_many_memoized rows).
    + apply memo_sound_events, memo_sound_load_many, Hself.
    + apply (memo_kept rows).
      * apply memo_sound_load_many, Hself.
      * apply load_many_memoizes. discriminate.
  - unfold dataloaders.load, dataloaders.load_many, dataloaders.load_many_start,
      dataloaders._execute_batch_start. simpl.
    rewrite lookup_empty. simpl. rewrite lookup_insert_eq. reflexivity.
  - unfold dataloaders.load, dataloaders.load_many, dataloaders.load_many_start,
      dataloaders._execute_batch_start. simpl.
    rewrite lookup_empty. simpl. rewrite lookup_insert_eq. reflexivity.
Qed.

(** *** One fetch per call *)

(** The calls of a tick that reach the fetcher: those with a list that is
    not empty and not in the memo. *)
Definition fetching (self : Loader) (ids : list UUID) : Prop :=
  ids <> [] /\ ~ is_Some (_cache self !! cache_key_of ids).

#[local] Instance fetching_dec (self : Loader) (ids : list UUID)
  : Decision (fetching self ids).
Proof. unfold fetching. apply _. Defined.




(** *** No single flight *)





(** *** Calls awaited in a row and calls gathered are sequences of events *)

Lemma run_events_app (h1 h2 : list event) (self : Loader) :
  run_events (h1 ++ h2) self = run_events h2 (run_events h1 self).
Proof. apply foldl_app. Qed.

Lemma load_many_start_suspended (ids keys : list UUID) (self self' : Loader) :
  load_many_start ids self = (Suspended keys, self') -> keys = ids.
Proof.
  unfold dataloaders.load_many_start, dataloaders._execute_batch_start.
  destruct ids; [discriminate|].
  destruct (_cache self !! _); [discriminate|]. intros [= <- _]. reflexivity.
Qed.

Lemma load_many_events (c : call) (self : Loader) :
  exists history, (load_many (call_ids c) self).2 = run_events history self.
Proof.
  unfold dataloaders.load_many.
  destruct (load_many_start (call_ids c) self) as [[r|keys] self'] eqn:Hs.
  - exists [Start c]. simpl. rewrite Hs. reflexivity.
  - exists [Start c; Resume keys]. simpl. rewrite Hs. reflexivity.
Qed.

Lemma run_sequential_events (calls : list call) :
  forall self : Loader,
    exists history, run_sequential calls self = run_events history self.
Proof.
  induction calls as [|c calls IH]; intros self.
  - exists []. reflexivity.
  - destruct (load_many_events c self) as [h1 H1].
    destruct (IH (load_many (call_ids c) self).2) as [h2 H2].
    exists (h1 ++ h2)%list. rewrite run_events_app, <- H1, <- H2. reflexivity.
Qed.

Lemma tick_events (calls : list call) :
  forall self : Loader,
    (tick calls self).2 = run_events (map Start calls) self.
Proof.
  induction calls as [|c calls IH]; intros self; [reflexivity|].
  cbn [dataloaders.tick map]. unfold run_events. cbn [foldl step].
  destruct (load_many_start (call_ids c) self) as [p self1]; cbn [snd].
  fold (run_events (map Start calls) self1).
  rewrite <- IH. destruct (tick calls self1); reflexivity.
Qed.

Lemma settle_events (ps : list (progress Entity)) :
  forall self : Loader,
    exists history,
      (settle entity_id loader_key ps self).2 = run_events history self.
Proof.
  induction ps as [|[r|keys] ps IH]; intros self.
  - exists []. reflexivity.
  - destruct (IH self) as [h H]. exists h. simpl.
    destruct (settle entity_id loader_key ps self); exact H.
  - destruct (IH (_execute_batch_resume keys self).2) as [h H].
    exists (Resume keys :: h). simpl in *.
    destruct (settle entity_id loader_key ps _); exact H.
Qed.

Lemma gather_events (calls : list call) (self : Loader) :
  exists history, (gather calls self).2 = run_events history self.
Proof.
  unfold dataloaders.gather.
  pose proof (tick_events calls self) as Ht.
  destruct (tick calls self) as [ps self1]; simpl in Ht.
  destruct (settle_events ps self1) as [h Hh].
  exists (map Start calls ++ h)%list. rewrite run_events_app, <- Ht. exact Hh.
Qed.

End ListLoaders.

(** *** The company loader on a table of two companies *)

Section CompanyExamples.
Import dataloaders.

Definition id_a : UUID := mkUUID 0xa eq_refl.
Definition id_b : UUID := mkUUID 0xb eq_refl.
Definition id_c : UUID := mkUUID 0xc eq_refl.
Definition company_x : Company := mkCompany id_a "x".
Definition company_y : Company := mkCompany id_b "y".

Definition new_company_loader : BaseDataLoader Company :=
  __init__ (mkSession [company_x; company_y] []).

(** The example of the spec: [load_many([A, B, A])] gives [[x, y, x]], and an
    id without a row gives [None]. The fetcher is called once, with the list
    as it was given. *)
Example load_many_a_b_a :
  (CompanyDataLoader.load_many [id_a; id_b; id_a] new_company_loader).1
  = [Some company_x; Some company_y; Some company_x]
  /\ (CompanyDataLoader.load_many [id_a; id_c] new_company_loader).1
     = [Some company_x; None]
  /\ fetches (CompanyDataLoader.load_many [id_a; id_b; id_a] new_company_loader).2
     = [[id_a; id_b; id_a]].
Proof. vm_compute. repeat split. Qed.

(** C1, as the spec has it, fails: after [load_many([A, B])] the call
    [load(A)] finds nothing under the key of [[A]] and fetches A again. *)
Lemma key_fetched_again_in_another_list :
  let self :=
    CompanyDataLoader.run_sequential [LoadMany [id_a; id_b]; Load id_a]
      new_company_loader in
  fetches self = [[id_a; id_b]; [id_a]]
  /\ ~ (List.length (filter (fun ids => id_a ∈ ids) (fetches self)) <= 1).
Proof. vm_compute. split; [reflexivity|lia]. Qed.



End CompanyExamples.

(* ===================================================================== *)
(** ** The job-application loader *)
(* ===================================================================== *)

Section JobApplications.
Import dataloaders.
Import dataloaders.JobApplicationDataLoader.

Lemma user_cache_key_inj (u v : UUID) : cache_key_of u = cache_key_of v -> u = v.
Proof.
  unfold cache_key_of. intros H. apply String.app_inj in H.
  apply uuid_str_inj, H.
Qed.

(** What the dict built from a list of applications holds. *)
Lemma applications_map_lookup (l : list JobApplication) (j : UUID) (a : JobApplication) :
  foldl (fun m a => <[application_job_id a := a]> m) (∅ : gmap UUID JobApplication) l
    !! j = Some a ->
  a ∈ l /\ application_job_id a = j.
Proof.
  induction l as [|b l IH] using rev_ind.
  - simpl. rewrite lookup_empty. discriminate.
  - rewrite foldl_app. simpl.
    destruct (decide (application_job_id b = j)) as [Hj|Hj].
    + rewrite Hj, lookup_insert_eq. intros [= <-].
      split; [apply elem_of_app; right; left|exact Hj].
    + rewrite lookup_insert_ne by exact Hj. intros H.
      destruct (IH H) as [Hin Ha]. split; [apply elem_of_app; left|]; assumption.
Qed.

(** A job id outside the list of the fetch has no entry in what the fetch
    returns, whatever the table holds for it. *)
Lemma fetched_only_requested
    (user_id : UUID) (job_ids : list UUID) (s : AsyncSession) (j : UUID) :
  j ∉ job_ids ->
  (_batch_load_user_applications user_id job_ids s).1 !! j = None.
Proof.
  intros Hj. unfold _batch_load_user_applications. simpl.
  destruct (foldl _ _ _ !! j) as [a|] eqn:Ha; [|reflexivity].
  apply applications_map_lookup in Ha as [Hin Heq].
  apply list_elem_of_filter in Hin as [[_ Hin] _].
  rewrite Heq in Hin. contradiction.
Qed.

Lemma answer_lookup (cached : gmap UUID JobApplication) (job_ids : list UUID)
    (j : UUID) :
  answer cached job_ids !! j
  = if decide (j ∈ job_ids) then Some (cached !! j) else None.
Proof.
  unfold answer. induction job_ids as [|i job_ids IH] using rev_ind.
  - cbn [foldl]. rewrite lookup_empty, decide_False by apply not_elem_of_nil.
    reflexivity.
  - rewrite foldl_app. cbn [foldl].
    destruct (decide (i = j)) as [->|Hne].
    + rewrite lookup_insert_eq, decide_True; [reflexivity|].
      apply elem_of_app. right. left.
    + rewrite lookup_insert_ne by exact Hne. rewrite IH.
      destruct (decide (j ∈ job_ids)) as [Hin|Hnin].
      * rewrite decide_True; [reflexivity|]. apply elem_of_app. left. exact Hin.
      * rewrite decide_False; [reflexivity|].
        intros Hin. apply elem_of_app in Hin as [Hin|Hin]; [contradiction|].
        apply list_elem_of_singleton in Hin. congruence.
Qed.

(** With the memo of the user in place, a call is answered from it and
    changes nothing. *)
Lemma load_from_memo (user_id : UUID) (job_ids : list UUID)
    (cached : gmap UUID JobApplication) (self : t) :
  _cache self !! cache_key_of user_id = Some cached ->
  load_user_applications_for_jobs user_id job_ids self
  = (answer cached job_ids, self).
Proof.
  intros Hc. unfold load_user_applications_for_jobs.
  destruct job_ids as [|j job_ids]; [reflexivity|].
  rewrite Hc. reflexivity.
Qed.

(** A memo entry stays as it is through every later call. *)
Lemma memo_entry_kept (user_id : UUID) (cached : gmap UUID JobApplication)
    (calls : list (UUID * list UUID)) :
  forall self : t,
    _cache self !! cache_key_of user_id = Some cached ->
    _cache (run_sequential calls self) !! cache_key_of user_id = Some cached.
Proof.
  induction calls as [|[v ids] calls IH]; intros self Hc; [exact Hc|].
  simpl. apply IH. unfold load_user_applications_for_jobs.
  destruct ids as [|i ids]; [exact Hc|].
  destruct (_cache self !! cache_key_of v) as [m|] eqn:Hv; [exact Hc|].
  simpl. rewrite lookup_insert_ne; [exact Hc|].
  intros Heq. apply user_cache_key_inj in Heq. subst v. congruence.
Qed.

(** C10, amended. For a user whose memo is not populated yet, the first
    call with a job-id list that is not empty makes the one fetch, with
    that list, and stores what it returned. Every later call for the user,
    whatever calls came in between, makes no fetch and leaves the loader as
    it is; it answers each requested job id from what the first fetch
    returned, which is [None] for every job id outside the list of that
    fetch, whatever the table holds. (A call with an empty list returns an
    empty dict and touches neither the memo nor the table.) *)
Theorem user_applications_memo_is_first_fetch
    (self : t) (user_id first_job : UUID) (more_jobs : list UUID)
    (calls : list (UUID * list UUID)) (job_ids : list UUID) :
  _cache self !! cache_key_of user_id = None ->
  let first_ids := first_job :: more_jobs in
  let fetched :=
    (_batch_load_user_applications user_id first_ids (db_session self)).1 in
  let self1 := (load_user_applications_for_jobs user_id first_ids self).2 in
  let self2 := run_sequential calls self1 in
  executed (db_session self1)
  = (executed (db_session self) ++ [(user_id, first_ids)])%list
  /\ load_user_applications_for_jobs user_id job_ids self2
     = (answer fetched job_ids, self2)
  /\ (forall j, j ∈ job_ids ->
        (load_user_applications_for_jobs user_id job_ids self2).1 !! j
        = Some (fetched !! j))
  /\ (forall j, j ∈ job_ids -> j ∉ first_ids ->
        (load_user_applications_for_jobs user_id job_ids self2).1 !! j
        = Some None)
  /\ (forall v, load_user_applications_for_jobs v [] self2 = (∅, self2)).
Proof.
  intros Hmiss first_ids fetched self1 self2.
  assert (Hmemo1 : _cache self1 !! cache_key_of user_id = Some fetched).
  { unfold self1, load_user_applications_for_jobs, first_ids.
    rewrite Hmiss. simpl. apply lookup_insert_eq. }
  assert (Hmemo2 : _cache self2 !! cache_key_of user_id = Some fetched)
    by (apply memo_entry_kept, Hmemo1).
  pose proof (load_from_memo user_id job_ids fetched self2 Hmemo2) as Hload.
  split; [|split; [exact Hload|split; [|split]]].
  - unfold self1, load_user_applications_for_jobs, first_ids.
    rewrite Hmiss. reflexivity.
  - intros j Hj. rewrite Hload. simpl. rewrite answer_lookup.
    rewrite decide_True by exact Hj. reflexivity.
  - intros j Hj Hnot. rewrite Hload. simpl. rewrite answer_lookup.
    rewrite decide_True by exact Hj. f_equal.
    apply fetched_only_requested. exact Hnot.
  - reflexivity.
Qed.

Definition user_u : UUID := mkUUID 0x100 eq_refl.
Definition job_1 : UUID := mkUUID 0x1 eq_refl.
Definition job_2 : UUID := mkUUID 0x2 eq_refl.
Definition application_1 : JobApplication :=
  mkJobApplication (mkUUID 0x201 eq_refl) user_u job_1 "applied".
Definition application_2 : JobApplication :=
  mkJobApplication (mkUUID 0x202 eq_refl) user_u job_2 "interview".

Definition new_application_loader : t :=
  __init__ (mkSession [application_1; application_2] []).

(** The user has applied to both jobs. The first call asks for job 1; the
    later call for job 2 is answered [None] without a fetch. *)
Lemma user_applications_memo_is_first_fetch_witness :
  _cache new_application_loader !! cache_key_of user_u = None
  /\ let self1 :=
       (load_user_applications_for_jobs user_u [job_1] new_application_loader).2 in
     (load_user_applications_for_jobs user_u [job_2] self1).1 !! job_2
     = Some None
     /\ executed (db_session (load_user_applications_for_jobs user_u [job_2] self1).2)
        = [(user_u, [job_1])].
Proof.
  assert (Hmiss : _cache new_application_loader !! cache_key_of user_u = None)
    by reflexivity.
  split; [exact Hmiss|].
  pose proof (user_applications_memo_is_first_fetch new_application_loader
                user_u job_1 [] [] [job_2] Hmiss) as [Hlog [Hload [_ [Hnone _]]]].
  cbv zeta in *. split.
  - apply Hnone; [left|].
    intros Hin. apply list_elem_of_singleton in Hin. discriminate Hin.
  - unfold run_sequential in Hload. cbn [foldl] in Hload.
    rewrite Hload. exact Hlog.
Defined.

(** C10, as it is stated, fails when the first call has an empty list: it
    returns without touching the memo, and the next call for the user does
    fetch. *)
Lemma empty_first_call_populates_nothing :
  let first := load_user_applications_for_jobs user_u [] new_application_loader in
  let second := load_user_applications_for_jobs user_u [job_2] first.2 in
  first.1 = ∅
  /\ _cache first.2 !! cache_key_of user_u = None
  /\ executed (db_session first.2) = []
  /\ executed (db_session second.2) = [(user_u, [job_2])]
  /\ second.1 !! job_2 = Some (Some application_2).
Proof.
  intros first second. split; [|split; [|split; [|split]]].
  - reflexivity.
  - reflexivity.
  - reflexivity.
  - vm_compute. reflexivity.
  - vm_compute. reflexivity.
Qed.

End JobApplications.

(* ===================================================================== *)
(** ** More on the list loaders *)
(* ===================================================================== *)

Section ListLoadersMore.
Import dataloaders.

Context {Entity : Type}.
Variable entity_id : Entity -> UUID.
Variable loader_key : string.

Abbreviation Loader := (BaseDataLoader Entity).
Abbreviation cache_key_of := (dataloaders.cache_key_of loader_key).
Abbreviation load_many_start := (dataloaders.load_many_start loader_key).
Abbreviation _execute_batch_resume :=
  (dataloaders._execute_batch_resume entity_id loader_key).
Abbreviation load_many := (dataloaders.load_many entity_id loader_key).
Abbreviation load := (dataloaders.load entity_id loader_key).
Abbreviation tick := (dataloaders.tick loader_key).
Abbreviation settle := (dataloaders.settle entity_id loader_key).
Abbreviation gather := (dataloaders.gather entity_id loader_key).
Abbreviation run_sequential := (dataloaders.run_sequential entity_id loader_key).




(** *** Gathered calls *)

(** How far a call of a tick may have got in a sound state: suspended on its
    own key list, or finished with the fetcher's answer for it. *)
Definition progress_of (rows : list Entity) (c : call) (p : progress Entity)
  : Prop :=
  p = Suspended (call_ids c)
  \/ p = Finished (answers entity_id rows (call_ids c)).

Lemma load_many_start_progress (rows : list Entity) (c : call) (self : Loader) :
  memo_sound entity_id loader_key rows self ->
  progress_of rows c (load_many_start (call_ids c) self).1.
Proof.
  intros [_ Hmemo]. unfold dataloaders.load_many_start,
    dataloaders._execute_batch_start, progress_of.
  destruct (call_ids c) as [|i ids] eqn:Hc; [right; reflexivity|].
  destruct (_cache self !! cache_key_of (i :: ids)) as [r|] eqn:Hr; simpl.
  - right. rewrite (Hmemo _ _ Hr). reflexivity.
  - left. reflexivity.
Qed.

Lemma tick_progress (rows : list Entity) (calls : list call) :
  forall self : Loader,
    memo_sound entity_id loader_key rows self ->
    memo_sound entity_id loader_key rows (tick calls self).2
    /\ Forall2 (progress_of rows) calls (tick calls self).1.
Proof.
  induction calls as [|c calls IH]; intros self Hs.
  - split; [exact Hs|constructor].
  - simpl.
    pose proof (load_many_start_progress rows c self Hs) as Hp.
    pose proof (memo_sound_start entity_id loader_key rows (call_ids c) self Hs)
      as Hs1.
    destruct (load_many_start (call_ids c) self) as [p self1]; simpl in *.
    destruct (IH self1 Hs1) as [Hs2 Hps].
    destruct (tick calls self1) as [ps self2]; simpl in *.
    split; [exact Hs2|]. constructor; assumption.
Qed.

Lemma settle_answers (rows : list Entity) (calls : list call)
    (ps : list (progress Entity)) :
  Forall2 (progress_of rows) calls ps ->
  forall self : Loader,
    memo_sound entity_id loader_key rows self ->
    (settle ps self).1
    = map (fun c => answers entity_id rows (call_ids c)) calls.
Proof.
  induction 1 as [|c p calls ps Hp _ IH]; intros self Hs; [reflexivity|].
  destruct Hp as [-> | ->]; simpl.
  - pose proof (memo_sound_resume entity_id loader_key rows (call_ids c) self Hs)
      as Hs1.
    simpl in Hs1. specialize (IH _ Hs1).
    destruct (dataloaders.settle _ _ ps _) as [rs self2]; simpl in *.
    rewrite IH. f_equal.
    unfold dataloaders._batch_load_recv, dataloaders.scalars_all, answers.
    rewrite (proj1 Hs). reflexivity.
  - specialize (IH _ Hs).
    destruct (dataloaders.settle _ _ ps self) as [rs self2]; simpl in *.
    rewrite IH. reflexivity.
Qed.

(** X2. Calls gathered in one tick, in whatever state the loader is, each get
    the answer they would get alone: the results come in call order, and
    the result of a call lists, position by position, the rows of the ids
    it asked for. *)
Theorem gather_answers_every_call
    (rows : list Entity) (history : list event) (calls : list call) :
  let self := run_events entity_id loader_key history
                (__init__ (mkSession rows [])) in
  (gather calls self).1
  = map (fun c => map (row_of entity_id rows) (call_ids c)) calls.
Proof.
  intros self.
  assert (Hs : memo_sound entity_id loader_key rows self)
    by apply memo_sound_events, memo_sound_init.
  unfold dataloaders.gather.
  destruct (tick_progress rows calls self Hs) as [Hs1 Hps].
  destruct (tick calls self) as [ps self1]; simpl in *.
  rewrite (settle_answers rows calls ps Hps self1 Hs1).
  apply map_ext. intros c. apply answers_row_of.
Qed.

(** *** Calls awaited one after the other *)

(** The fetch log and the memo tell the same story: the key lists fetched
    are those with a memo entry, none of them twice. *)
Definition log_matches_memo (self : Loader) : Prop :=
  NoDup (fetches self)
  /\ forall ids, ids ∈ fetches self <-> is_Some (_cache self !! cache_key_of ids).

Lemma log_matches_memo_load_many (ids : list UUID) (self : Loader) :
  log_matches_memo self ->
  log_matches_memo (load_many ids self).2
  /\ forall ids', ids' ∈ fetches (load_many ids self).2
                  <-> ids' ∈ fetches self \/ (ids' = ids /\ ids <> []).
Proof.
  intros [Hnd Hlog]. unfold dataloaders.load_many, dataloaders.load_many_start,
    dataloaders._execute_batch_start.
  destruct ids as [|i ids].
  - simpl. split; [split; assumption|]. intros ids'. split; [auto|].
    intros [H|[_ H]]; [exact H|contradiction].
  - destruct (_cache self !! cache_key_of (i :: ids)) as [r|] eqn:Hr; simpl.
    + split; [split; assumption|]. intros ids'. split; [auto|].
      intros [H|[-> _]]; [exact H|]. apply Hlog. eauto.
    + assert (Hfresh : (i :: ids) ∉ fetches self).
      { intros Hin. apply Hlog in Hin as [r Hr']. congruence. }
      unfold fetches in *. simpl. split; [split|].
      * apply NoDup_app. split; [exact Hnd|]. split.
        -- intros x Hx Hx'. apply list_elem_of_singleton in Hx'. subst x.
           contradiction.
        -- apply NoDup_singleton.
      * intros ids'. unfold fetches. simpl.
        rewrite elem_of_app, list_elem_of_singleton.
        destruct (decide (cache_key_of (i :: ids) = cache_key_of ids'))
          as [Heq|Hne].
        -- rewrite Heq, lookup_insert_eq.
           apply (cache_key_of_inj loader_key) in Heq. split; eauto.
        -- rewrite lookup_insert_ne by exact Hne. rewrite <- Hlog.
           split; [|auto]. intros [H|H]; [exact H|]. congruence.
      * intros ids'. rewrite elem_of_app, list_elem_of_singleton.
        split; intros [H|H];
          [left; exact H | right; split; [exact H|discriminate]
          |left; exact H | right; exact (proj1 H)].
Qed.

Lemma run_sequential_log (calls : list call) :
  forall self : Loader,
    log_matches_memo self ->
    log_matches_memo (run_sequential calls self)
    /\ forall ids, ids ∈ fetches (run_sequential calls self)
                   <-> ids ∈ fetches self
                       \/ (ids <> [] /\ ids ∈ map call_ids calls).
Proof.
  induction calls as [|c calls IH]; intros self Hlm.
  - split; [exact Hlm|]. intros ids. split; [auto|].
    intros [H|[_ H]]; [exact H|inversion H].
  - simpl.
    destruct (log_matches_memo_load_many (call_ids c) self Hlm) as [Hlm1 H1].
    destruct (IH _ Hlm1) as [Hlm2 H2].
    split; [exact Hlm2|]. intros ids.
    change (foldl _ (load_many (call_ids c) self).2 calls)
      with (run_sequential calls (load_many (call_ids c) self).2).
    rewrite H2, H1, elem_of_cons. split.
    + intros [[H|[-> Hne]]|[Hne H]]; auto.
    + intros [H|[Hne [->|H]]]; auto.
Qed.

(** X3. On a new loader, calls awaited one after the other invoke the
    fetcher exactly once for every distinct key list that is not empty: no
    list appears twice among the invocations, and the lists invoked are
    the non-empty key lists of the calls. *)
Theorem sequential_calls_fetch_each_list_once
    (rows : list Entity) (calls : list call) :
  let self := run_sequential calls (__init__ (mkSession rows [])) in
  NoDup (fetches self)
  /\ forall ids, ids ∈ fetches self <-> ids <> [] /\ ids ∈ map call_ids calls.
Proof.
  intros self.
  assert (Hnew : log_matches_memo (__init__ (mkSession rows []))).
  { split; [constructor|]. intros ids. simpl. rewrite lookup_empty.
    split; [intros H; inversion H|intros [r Hr]; discriminate]. }
  destruct (run_sequential_log calls _ Hnew) as [[Hnd _] Hlog].
  split; [exact Hnd|]. intros ids. unfold self. rewrite Hlog. simpl. split; [|auto].
  intros [H|H]; [inversion H|exact H].
Qed.

End ListLoadersMore.

(* ===================================================================== *)
(** ** More on the job-application loader *)
(* ===================================================================== *)

Section JobApplicationsMore.
Import dataloaders.
Import dataloaders.JobApplicationDataLoader.

Lemma applications_map_last (l : list JobApplication) (j : UUID) :
  foldl (fun m a => <[application_job_id a := a]> m)
        (∅ : gmap UUID JobApplication) l !! j
  = last (filter (fun a => application_job_id a = j) l).
Proof.
  induction l as [|b l IH] using rev_ind; [reflexivity|].
  rewrite foldl_app, filter_app. cbn [foldl].
  destruct (decide (application_job_id b = j)) as [Hj|Hj].
  - rewrite Hj, lookup_insert_eq.
    rewrite (filter_cons_True _ b) by exact Hj. rewrite filter_nil.
    symmetry. apply last_snoc.
  - rewrite lookup_insert_ne by exact Hj.
    rewrite (filter_cons_False _ b) by exact Hj. rewrite filter_nil, app_nil_r.
    exact IH.
Qed.

Lemma filter_user_job (rows : list JobApplication) (u j : UUID) :
  filter (fun a => application_job_id a = j)
    (filter (fun a => application_user_id a = u /\ application_job_id a ∈ [j])
       rows)
  = filter (fun a => application_user_id a = u /\ application_job_id a = j) rows.
Proof.
  induction rows as [|a rows IH]; [reflexivity|].
  destruct (decide (application_user_id a = u /\ application_job_id a = j))
    as [[Hu Hj]|Hno].
  - rewrite (filter_cons_True (fun a => _ /\ application_job_id a ∈ [j]))
      by (split; [exact Hu|rewrite Hj; left]).
    rewrite (filter_cons_True (fun a => application_job_id a = j)) by exact Hj.
    rewrite (filter_cons_True (fun a => _ /\ application_job_id a = j))
      by (split; assumption).
    rewrite IH. reflexivity.
  - rewrite (filter_cons_False (fun a => _ /\ application_job_id a = j))
      by exact Hno.
    destruct (decide (application_user_id a = u /\ application_job_id a ∈ [j]))
      as [[Hu Hin]|Hno'].
    + rewrite (filter_cons_True (fun a => _ /\ application_job_id a ∈ [j]))
        by (split; assumption).
      apply list_elem_of_singleton in Hin.
      exfalso. apply Hno. split; assumption.
    + rewrite (filter_cons_False (fun a => _ /\ application_job_id a ∈ [j]))
        by exact Hno'.
      exact IH.
Qed.

(** X4. For a user whose memo is not populated, [load_user_application_for_job]
    makes one query, for that user and that one job, and returns the user's
    application to the job (the last such row of the table), [None] when the
    user has none. *)
Theorem load_user_application_for_job_first
    (self : t) (user_id job_id : UUID) :
  _cache self !! cache_key_of user_id = None ->
  (load_user_application_for_job user_id job_id self).1
  = last (filter (fun a => application_user_id a = user_id
                           /\ application_job_id a = job_id)
                 (table (db_session self)))
  /\ executed (db_session (load_user_application_for_job user_id job_id self).2)
     = (executed (db_session self) ++ [(user_id, [job_id])])%list.
Proof.
  intros Hmiss. unfold load_user_application_for_job,
    load_user_applications_for_jobs.
  rewrite Hmiss. cbn [fst snd db_session executed _batch_load_user_applications].
  split; [|reflexivity].
  rewrite answer_lookup, decide_True by left. cbn [default].
  rewrite applications_map_last. rewrite filter_user_job. reflexivity.
Qed.

Lemma load_user_application_for_job_first_witness :
  _cache new_application_loader !! cache_key_of user_u = None
  /\ (load_user_application_for_job user_u job_2 new_application_loader).1
     = Some application_2.
Proof.
  assert (Hmiss : _cache new_application_loader !! cache_key_of user_u = None)
    by reflexivity.
  split; [exact Hmiss|].
  rewrite (proj1 (load_user_application_for_job_first
                    new_application_loader user_u job_2 Hmiss)).
  vm_compute. reflexivity.
Defined.

End JobApplicationsMore.

(* ===================================================================== *)
(** ** The registry in a request context *)
(* ===================================================================== *)

Section RequestContext.
Import dataloaders.
Import context.

(** A second [load] of the same id finds the list of the first under the
    same cache key. *)
Lemma load_again {Entity : Type} (entity_id : Entity -> UUID) (loader_key : string)
    (id : UUID) (l : BaseDataLoader Entity) :
  let first := dataloaders.load entity_id loader_key id l in
  dataloaders.load entity_id loader_key id first.2 = (first.1, first.2).
Proof.
  unfold dataloaders.load.
  pose proof (load_many_memoizes entity_id loader_key [id] l ltac:(discriminate))
    as Hmemo.
  destruct (dataloaders.load_many entity_id loader_key [id] l) as [r l1].
  simpl in *.
  unfold dataloaders.load_many, dataloaders.load_many_start,
    dataloaders._execute_batch_start. rewrite Hmemo. reflexivity.
Qed.

Lemma load_fetches_after_clear {Entity : Type} (entity_id : Entity -> UUID)
    (loader_key : string) (id : UUID) (l : BaseDataLoader Entity) :
  fetches (dataloaders.load entity_id loader_key id (DataLoaderRegistry.clear l)).2
  = (fetches l ++ [[id]])%list.
Proof.
  unfold dataloaders.load, dataloaders.load_many, dataloaders.load_many_start,
    dataloaders._execute_batch_start, DataLoaderRegistry.clear. simpl.
  rewrite lookup_empty. reflexivity.
Qed.

(** The context after [load_company]: a registry with a company loader. *)
Lemma load_company_shape (id : UUID) (ctx : GraphQLContext) :
  exists (r : DataLoaderRegistry.t) (l : BaseDataLoader Company),
    (load_company id ctx).1 = (CompanyDataLoader.load id l).1
    /\ (load_company id ctx).2
       = set_dataloaders ctx
           (DataLoaderRegistry.set_company r (CompanyDataLoader.load id l).2).
Proof.
  unfold load_company, get_dataloaders, dataloaders.
  destruct ctx as [s u [r|]]; simpl.
  - unfold DataLoaderRegistry.get_company_loader.
    destruct (DataLoaderRegistry.company r) as [l|]; simpl.
    + exists r, l. destruct (CompanyDataLoader.load id l); auto.
    + exists r, (dataloaders.__init__
                   (mkSession (DataLoaderRegistry.companies
                                 (DataLoaderRegistry.db_session r)) [])).
      destruct (CompanyDataLoader.load id _); auto.
  - exists (DataLoaderRegistry.__init__ s),
      (dataloaders.__init__ (mkSession (DataLoaderRegistry.companies s) [])).
    destruct (CompanyDataLoader.load id _); auto.
Qed.

(** X5. Within one request context the registry and its company loader are
    created once and shared: a resolver that loads a company id another
    resolver has loaded before gets the same value, and the context is left
    exactly as it was (no query, no new registry, no new loader). *)
Theorem load_company_shared_memo (id : UUID) (ctx : GraphQLContext) :
  let first := load_company id ctx in
  load_company id first.2 = (first.1, first.2)
  /\ company_fetches (load_company id first.2).2 = company_fetches first.2.
Proof.
  intros first.
  assert (H : load_company id first.2 = (first.1, first.2)).
  { unfold first. destruct (load_company_shape id ctx) as [r [l [H1 H2]]].
    rewrite H1, H2.
    unfold load_company at 1, get_dataloaders, dataloaders,
      DataLoaderRegistry.get_company_loader. simpl.
    unfold CompanyDataLoader.load.
    rewrite (load_again company_id "companies" id l). reflexivity. }
  split; [exact H|]. rewrite H. reflexivity.
Qed.

(** X6. [clear_dataloaders] empties the memo and keeps the loader: the same
    load after it queries the database again, where without it the load
    would have been answered from the memo. On a context whose registry was
    never asked for, it creates none. *)
Theorem clear_dataloaders_forgets (id : UUID) (ctx : GraphQLContext) :
  let first := load_company id ctx in
  company_fetches (load_company id (clear_dataloaders first.2)).2
  = (company_fetches first.2 ++ [[id]])%list
  /\ (forall session u,
        clear_dataloaders (context.__init__ session u)
        = context.__init__ session u).
Proof.
  intros first. split; [|reflexivity].
  unfold first. destruct (load_company_shape id ctx) as [r [l [_ H2]]].
  rewrite H2.
  unfold load_company, get_dataloaders, dataloaders, clear_dataloaders,
    DataLoaderRegistry.get_company_loader, company_fetches. simpl.
  unfold CompanyDataLoader.load.
  pose proof (load_fetches_after_clear company_id "companies" id
                (dataloaders.load company_id "companies" id l).2) as Hf.
  destruct (dataloaders.load company_id "companies" id
              (DataLoaderRegistry.clear _)) as [r2 l2].
  simpl in *. exact Hf.
Qed.

End RequestContext.

(* ===================================================================== *)
(** ** More on the cache service *)
(* ===================================================================== *)

Section CacheServiceMore.
Import cache_service.

Variable json_loads : string -> option pyval.

Lemma with_client_same (self : CacheService) (c : redis.Redis) :
  redis_client self = Some c -> with_client self (Some c) = self.
Proof. destruct self; simpl; intros ->; reflexivity. Qed.

(** X7. [get_job_search_results] returns a value exactly when the client is
    connected, the server answers, it holds a live, non-empty text under the
    key of the parameters, and the text parses: the value is what the text
    parses to. In every other case (no client, server error, no entry, an
    expired or empty entry, text that is not JSON) the result is [None].
    The service and the server are left as they were. *)
Theorem get_job_search_results_hit_iff
    (p : search_params) (self : CacheService) (v : pyval) :
  ((get_job_search_results json_loads p self).1.1 = Ok (Some v) <->
   exists server text,
     redis_client self = Some server
     /\ redis.fault server = None
     /\ redis.live server (_generate_cache_key "jobs" (search_kwargs p))
        = Some text
     /\ text <> ""
     /\ json_loads text = Some v)
  /\ (exists o, (get_job_search_results json_loads p self).1.1 = Ok o)
  /\ (get_job_search_results json_loads p self).1.2 = self.
Proof.
  unfold get_job_search_results.
  destruct (redis_client self) as [server|] eqn:Hclient.
  2:{ simpl. split; [|split; [eauto|reflexivity]].
      split; [discriminate|]. intros [s [t [H _]]]. discriminate. }
  unfold run, try_except, io_bind, query, redis.get, redis.guarded, loads.
  set (key := _generate_cache_key "jobs" (search_kwargs p)).
  destruct (redis.fault server) as [e|] eqn:Hfault; simpl.
  { split; [|split; [eauto|apply with_client_same, Hclient]].
    split; [discriminate|]. intros [s [t [[= <-] [H _]]]]. congruence. }
  destruct (redis.live server key) as [text|] eqn:Hlive; simpl.
  2:{ split; [|split; [eauto|apply with_client_same, Hclient]].
      split; [discriminate|]. intros [s [t [[= <-] [_ [H _]]]]]. congruence. }
  destruct text as [|c text]; simpl.
  { split; [|split; [eauto|apply with_client_same, Hclient]].
    split; [discriminate|].
    intros [s [t [[= <-] [_ [H [Hne _]]]]]]. rewrite Hlive in H.
    injection H as <-. contradiction. }
  destruct (json_loads (String c text)) as [w|] eqn:Hparse; simpl.
  - split; [|split; [eauto|apply with_client_same, Hclient]].
    split.
    + intros [= <-]. exists server, (String c text).
      split; [reflexivity|]. split; [exact Hfault|]. split; [exact Hlive|].
      split; [discriminate|exact Hparse].
    + intros [s [t [[= <-] [_ [H [_ Hv]]]]]]. rewrite Hlive in H.
      injection H as <-. rewrite Hparse in Hv. injection Hv as <-. reflexivity.
  - split; [|split; [eauto|apply with_client_same, Hclient]].
    split; [discriminate|].
    intros [s [t [[= <-] [_ [H [_ Hv]]]]]]. rewrite Hlive in H.
    injection H as <-. congruence.
Qed.

(** *** What invalidation does to the server *)

Lemma delete_fold_server (r : redis.Redis) (names : list string) :
  forall acc : Z * redis.Redis,
    redis.now acc.2 = redis.now r -> redis.fault acc.2 = redis.fault r ->
    let after := (foldl (delete_step r) acc names).2 in
    redis.now after = redis.now r
    /\ redis.fault after = redis.fault r
    /\ (forall k e, redis.entries after !! k = Some e ->
                    redis.entries acc.2 !! k = Some e)
    /\ (forall k, k ∉ names ->
                  redis.entries after !! k = redis.entries acc.2 !! k).
Proof.
  induction names as [|n names IH]; intros acc Hnow Hfault.
  - simpl. repeat split; auto.
  - simpl foldl.
    assert (Hstep : redis.now (delete_step r acc n).2 = redis.now r
                    /\ redis.fault (delete_step r acc n).2 = redis.fault r
                    /\ (forall k e,
                          redis.entries (delete_step r acc n).2 !! k = Some e ->
                          redis.entries acc.2 !! k = Some e)
                    /\ (forall k, k <> n ->
                          redis.entries (delete_step r acc n).2 !! k
                          = redis.entries acc.2 !! k)).
    { unfold delete_step. destruct (redis.live acc.2 n); simpl.
      - split; [reflexivity|]. split; [reflexivity|]. split.
        + intros k e Hk. apply lookup_delete_Some in Hk. apply Hk.
        + intros k Hk. apply lookup_delete_ne. congruence.
      - repeat split; auto. }
    destruct Hstep as [Hn [Hf [Hsub Hother]]].
    destruct (IH _ Hn Hf) as [Hn' [Hf' [Hsub' Hother']]].
    split; [exact Hn'|]. split; [exact Hf'|]. split.
    + intros k e Hk. apply Hsub, Hsub', Hk.
    + intros k Hk. rewrite Hother'.
      * apply Hother. intros ->. apply Hk. left.
      * intros Hin. apply Hk. right. exact Hin.
Qed.

Lemma delete_by_steps (names : list string) (r : redis.Redis) :
  redis.delete names r
  = redis.guarded r (Ok (foldl (delete_step r) (0%Z, r) names)).
Proof. reflexivity. Qed.

(** The server after [invalidate_job_caches], whatever its state before:
    same clock, same fault, no entry that was not there before, the
    entries under other keys untouched and, if the server answers, no live
    entry left under a key of the job pattern. *)
Lemma invalidate_job_caches_server
    (server : redis.Redis) (ttl : gmap string Z) (patterns : gmap string string) :
  let self := {| redis_client := Some server; ttl_config := ttl;
                 key_patterns := patterns |} in
  exists server',
    (invalidate_job_caches self).1.2
    = {| redis_client := Some server'; ttl_config := ttl;
         key_patterns := patterns |}
    /\ redis.now server' = redis.now server
    /\ redis.fault server' = redis.fault server
    /\ (forall k e, redis.entries server' !! k = Some e ->
                    redis.entries server !! k = Some e)
    /\ (forall k, redis.matches "jobquest:jobs:*" k = false ->
                  redis.entries server' !! k = redis.entries server !! k)
    /\ (redis.fault server = None ->
        forall k, redis.matches "jobquest:jobs:*" k = true ->
                  redis.live server' k = None).
Proof.
  intros self.
  unfold invalidate_job_caches, run, try_except, io_bind, query, update.
  cbn [redis_client self].
  destruct (redis.keys "jobquest:jobs:*" server) as [job_keys|e] eqn:Hkeys.
  2:{ assert (He : is_Exception e = true).
      { unfold redis.keys, redis.guarded in Hkeys.
        destruct (redis.fault server); [|discriminate].
        injection Hkeys as <-. reflexivity. }
      rewrite He. simpl. exists server. split; [reflexivity|].
      repeat split; auto.
      intros Hf. unfold redis.keys, redis.guarded in Hkeys. rewrite Hf in Hkeys.
      discriminate. }
  assert (Hfault : redis.fault server = None).
  { unfold redis.keys, redis.guarded in Hkeys.
    destruct (redis.fault server); [discriminate|reflexivity]. }
  pose proof (fun k : string => keys_spec json_loads _ _ _ k Hkeys) as Hspec.
  destruct job_keys as [|k0 ks].
  - simpl. exists server. split; [reflexivity|]. repeat split; auto.
    intros _ k Hm. destruct (redis.live server k) eqn:Hl; [|reflexivity].
    exfalso. apply (not_elem_of_nil k). apply Hspec. eauto.
  - rewrite delete_by_steps. unfold redis.guarded. rewrite Hfault. cbn [bind].
    destruct (delete_fold_server server (k0 :: ks) (0%Z, server) eq_refl eq_refl)
      as [Hn [Hf [Hsub Hother]]].
    pose proof (delete_fold_live server (k0 :: ks) (0%Z, server) eq_refl) as Hlive.
    set (after := foldl (delete_step server) (0%Z, server) (k0 :: ks)) in *.
    simpl. exists after.2. split; [reflexivity|].
    split; [exact Hn|]. split; [congruence|]. split; [exact Hsub|]. split.
    + intros k Hm. apply Hother. intros Hin. apply Hspec in Hin as [_ Hin].
      congruence.
    + intros _ k Hm. rewrite Hlive. case_decide as Hin; [reflexivity|].
      cbn [snd]. destruct (redis.live server k) eqn:Hl; [|reflexivity].
      exfalso. apply Hin, Hspec. eauto.
Qed.

(** X8. After [invalidate_job_caches] on a server that answers, every
    [get_job_search_results] misses, whatever the parameters and whatever
    the server held. *)
Theorem invalidate_then_get_misses
    (entries : gmap string (string * Z)) (now : Z)
    (ttl : gmap string Z) (patterns : gmap string string) (p : search_params) :
  let self := {| redis_client := Some (redis.mkRedis entries now None);
                 ttl_config := ttl; key_patterns := patterns |} in
  (get_job_search_results json_loads p (invalidate_job_caches self).1.2).1.1
  = Ok None.
Proof.
  intros self.
  destruct (invalidate_job_caches_server (redis.mkRedis entries now None)
              ttl patterns) as [server' [Hself [_ [Hf [_ [_ Hgone]]]]]].
  fold self in Hself. rewrite Hself.
  unfold get_job_search_results, run, try_except, io_bind, query, redis.get,
    redis.guarded. cbn [redis_client].
  rewrite Hf. cbn [redis.fault].
  rewrite (Hgone eq_refl).
  - reflexivity.
  - apply matches_jobs_pattern. eexists. reflexivity.
Qed.

(** X9. [invalidate_job_caches] does not touch the company cache: for every
    company id, [get_company_data] answers after it what it answered
    before it, in every state of the service. *)
Theorem invalidate_keeps_company_data
    (self : CacheService) (company_id : string) :
  (get_company_data json_loads company_id (invalidate_job_caches self).1.2).1.1
  = (get_company_data json_loads company_id self).1.1
  /\ (get_company_data json_loads company_id (invalidate_job_caches self).1.2).2
     = (get_company_data json_loads company_id self).2.
Proof.
  destruct self as [[server|] ttl patterns]; [|split; reflexivity].
  destruct (invalidate_job_caches_server server ttl patterns)
    as [server' [Hself [Hn [Hf [_ [Hother _]]]]]].
  rewrite Hself.
  assert (Hlive : redis.live server' ("jobquest:company:" ++ company_id)
                  = redis.live server ("jobquest:company:" ++ company_id)).
  { unfold redis.live. rewrite Hn, Hother; [reflexivity|].
    destruct (redis.matches _ _) eqn:Hm; [|reflexivity].
    apply matches_jobs_pattern in Hm as [rest Hrest]. discriminate. }
  unfold get_company_data, run, try_except, io_bind, query, redis.get,
    redis.guarded. cbn [redis_client].
  rewrite Hf, Hlive.
  destruct (redis.fault server); simpl; [split; reflexivity|].
  destruct (truthy _); simpl; [|split; reflexivity].
  unfold loads. destruct (json_loads _); simpl; split; reflexivity.
Qed.

(** *** Keys of different prefixes *)

Lemma cache_key_hash_length (kw : kwargs) :
  String.length
    (py_slice (hashlib.md5_hexdigest
                 (encode (json.dumps true (json.of_items (sorted_items kw)))))
              0 8) = 8.
Proof.
  unfold py_slice. apply substring_length. rewrite md5_hexdigest_length.
  simpl. lia.
Qed.

(** X10. Keys built for two different prefixes are different, whatever the
    parameters: the hash has a fixed width, so the prefix can be read off
    the key. A key is 18 characters longer than its prefix. *)
Theorem cache_keys_separate_prefixes
    (prefix1 prefix2 : string) (kw1 kw2 : kwargs) :
  prefix1 <> prefix2 ->
  _generate_cache_key prefix1 kw1 <> _generate_cache_key prefix2 kw2
  /\ String.length (_generate_cache_key prefix1 kw1)
     = String.length prefix1 + 18.
Proof.
  intros Hne.
  assert (Hlen : forall prefix kw,
            String.length (_generate_cache_key prefix kw)
            = String.length prefix + 18).
  { intros prefix kw. unfold _generate_cache_key.
    rewrite !string_length_app, cache_key_hash_length. simpl. lia. }
  split; [|apply Hlen].
  intros Heq.
  pose proof (f_equal String.length Heq) as Hl. rewrite !Hlen in Hl.
  unfold _generate_cache_key in Heq.
  apply String.app_inj in Heq.
  apply string_app_inj_length in Heq as [Hp _]; [|lia].
  contradiction.
Qed.

Lemma cache_keys_separate_prefixes_witness :
  "jobs" <> "company"
  /\ _generate_cache_key "jobs" (search_kwargs default_params)
     <> _generate_cache_key "company" (search_kwargs default_params).
Proof.
  assert (Hne : "jobs" <> "company") by discriminate.
  split; [exact Hne|].
  exact (proj1 (cache_keys_separate_prefixes "jobs" "company"
                  (search_kwargs default_params) (search_kwargs default_params)
                  Hne)).
Defined.

(** *** The service never stores *)

(** The operations of the service. *)
Inductive operation :=
  | GetJobSearch (p : search_params)
  | SetJobSearch (results : list pyval) (p : search_params) (utcnow : string)
  | GetCompany (company_id : string)
  | SetCompany (company_id : string) (company_data : pyval)
  | InvalidateJobs.

(** The service after an operation. *)
Definition perform (self : CacheService) (op : operation) : CacheService :=
  match op with
  | GetJobSearch p => (get_job_search_results json_loads p self).1.2
  | SetJobSearch results p utcnow =>
    (set_job_search_results results p utcnow self).1.2
  | GetCompany company_id => (get_company_data json_loads company_id self).1.2
  | SetCompany company_id data => (set_company_data company_id data self).1.2
  | InvalidateJobs => (invalidate_job_caches self).1.2
  end.

Definition perform_all (ops : list operation) (self : CacheService)
  : CacheService :=
  foldl perform self ops.

(** The state of the server can only lose entries. *)
Definition no_new_entry (before after : redis.Redis) : Prop :=
  redis.now after = redis.now before
  /\ redis.fault after = redis.fault before
  /\ forall k e, redis.entries after !! k = Some e ->
                 redis.entries before !! k = Some e.

Lemma get_job_search_results_same (p : search_params) (self : CacheService) :
  (get_job_search_results json_loads p self).1.2 = self.
Proof.
  unfold get_job_search_results.
  destruct (redis_client self) as [server|] eqn:Hclient; [|reflexivity].
  unfold run, try_except, io_bind, query, redis.get, redis.guarded, loads.
  destruct (redis.fault server); simpl; [apply with_client_same, Hclient|].
  destruct (truthy _); simpl; [|apply with_client_same, Hclient].
  destruct (json_loads _); simpl; apply with_client_same, Hclient.
Qed.

Lemma get_company_data_same (company_id : string) (self : CacheService) :
  (get_company_data json_loads company_id self).1.2 = self.
Proof.
  unfold get_company_data.
  destruct (redis_client self) as [server|] eqn:Hclient; [|reflexivity].
  unfold run, try_except, io_bind, query, redis.get, redis.guarded, loads.
  destruct (redis.fault server); simpl; [apply with_client_same, Hclient|].
  destruct (truthy _); simpl; [|apply with_client_same, Hclient].
  destruct (json_loads _); simpl; apply with_client_same, Hclient.
Qed.

Lemma perform_no_new_entry (op : operation) (server : redis.Redis)
    (ttl : gmap string Z) (patterns : gmap string string) :
  exists server',
    perform {| redis_client := Some server; ttl_config := ttl;
               key_patterns := patterns |} op
    = {| redis_client := Some server'; ttl_config := ttl;
         key_patterns := patterns |}
    /\ no_new_entry server server'.
Proof.
  assert (Hrefl : no_new_entry server server) by (repeat split; auto).
  destruct op as [p|results p utcnow|cid|cid data|]; simpl.
  - exists server. split; [|exact Hrefl]. apply get_job_search_results_same.
  - exists server. split; [reflexivity|exact Hrefl].
  - exists server. split; [|exact Hrefl]. apply get_company_data_same.
  - exists server. split; [reflexivity|exact Hrefl].
  - destruct (invalidate_job_caches_server server ttl patterns)
      as [server' [Hself [Hn [Hf [Hsub _]]]]].
    exists server'. split; [exact Hself|]. repeat split; assumption.
Qed.

(** X11. Whatever sequence of operations is run on a connected service, the
    server never gains or changes an entry: every entry it holds afterwards
    it held before, with the same value and expiry. On a server that
    started empty every read is therefore a miss. *)
Theorem service_never_stores
    (ops : list operation) (server : redis.Redis)
    (ttl : gmap string Z) (patterns : gmap string string) :
  (exists server',
     perform_all ops {| redis_client := Some server; ttl_config := ttl;
                        key_patterns := patterns |}
     = {| redis_client := Some server'; ttl_config := ttl;
          key_patterns := patterns |}
     /\ no_new_entry server server')
  /\ (forall now fault p company_id,
        let self := perform_all ops
                      {| redis_client := Some (redis.mkRedis ∅ now fault);
                         ttl_config := ttl; key_patterns := patterns |} in
        (get_job_search_results json_loads p self).1.1 = Ok None
        /\ (get_company_data json_loads company_id self).1.1 = Ok None).
Proof.
  assert (Hgen : forall ops server,
    exists server',
      perform_all ops {| redis_client := Some server; ttl_config := ttl;
                         key_patterns := patterns |}
      = {| redis_client := Some server'; ttl_config := ttl;
           key_patterns := patterns |}
      /\ no_new_entry server server').
  { clear ops server. induction ops as [|op ops IH]; intros server.
    - exists server. split; [reflexivity|]. repeat split; auto.
    - simpl.
      destruct (perform_no_new_entry op server ttl patterns)
        as [s1 [H1 [Hn1 [Hf1 Hsub1]]]].
      unfold perform_all in IH. rewrite H1.
      destruct (IH s1) as [s2 [H2 [Hn2 [Hf2 Hsub2]]]].
      exists s2. split; [exact H2|]. split; [congruence|]. split; [congruence|].
      intros k e Hk. apply Hsub1, Hsub2, Hk. }
  split; [apply Hgen|].
  intros now fault p cid self.
  destruct (Hgen ops (redis.mkRedis ∅ now fault)) as [s' [Hs' [_ [_ Hsub]]]].
  unfold self. rewrite Hs'.
  assert (Hempty : forall k, redis.live s' k = None).
  { intros k. unfold redis.live.
    destruct (redis.entries s' !! k) as [[v e]|] eqn:Hk; [|reflexivity].
    apply Hsub in Hk. simpl in Hk. rewrite lookup_empty in Hk. discriminate. }
  unfold get_job_search_results, get_company_data, run, try_except, io_bind,
    query, redis.get, redis.guarded. cbn [redis_client].
  rewrite !Hempty. destruct (redis.fault s'); simpl; split; reflexivity.
Qed.

End CacheServiceMore.

(* ===================================================================== *)
(** ** More on the metrics collector *)
(* ===================================================================== *)

Section MonitoringMore.
Import monitoring.

(** The window of a [deque(maxlen=n)] after the entries of [l] and then [x]
    were appended. *)
Lemma deque_append_window {A} (n : nat) (l : list A) (x : A) :
  deque_append n (drop (List.length l - n) l) x
  = drop (List.length (l ++ [x]) - n) (l ++ [x]).
Proof.
  unfold deque_append.
  rewrite !length_app, length_drop. simpl.
  destruct (decide (List.length l <= n)) as [Hle|Hgt].
  - replace (List.length l - n) with 0 by lia. rewrite drop_0.
    f_equal. lia.
  - rewrite <- (drop_app_le l [x] (List.length l - n)) by lia.
    rewrite drop_drop. f_equal. lia.
Qed.

(** A call of [record_cache_operation], as the values it is given. *)
Definition recorded (call : cache_operation) (c : MetricsCollector)
  : MetricsCollector :=
  record_cache_operation (type call) (hit call) (duration_ms call)
    (timestamp call) c.

Definition empty_collector : MetricsCollector :=
  {| cache_hit_rate := []; cache_operations := [] |}.

Lemma recorded_operations (call : cache_operation) (c : MetricsCollector) :
  cache_operations (recorded call c)
  = deque_append 100 (cache_operations c) call.
Proof.
  unfold recorded, record_cache_operation.
  destruct call as [ty h d ts]; simpl.
  destruct (drop _ _); reflexivity.
Qed.

Lemma deque_append_not_nil {A} (n : nat) (d : list A) (x : A) :
  0 < n -> deque_append n d x <> [].
Proof.
  intros Hn H. apply (f_equal last) in H.
  rewrite last_deque_append in H by exact Hn. discriminate.
Qed.

Lemma recorded_hit_rate_length (call : cache_operation) (c : MetricsCollector) :
  List.length (cache_hit_rate (recorded call c))
  = Nat.min (S (List.length (cache_hit_rate c))) 100.
Proof.
  unfold recorded, record_cache_operation.
  destruct (drop _ _) as [|op rest] eqn:Hrecent.
  - exfalso.
    apply (f_equal last) in Hrecent. rewrite last_drop in Hrecent.
    + rewrite last_deque_append in Hrecent by lia. discriminate.
    + assert (deque_append 100 (cache_operations c)
                {| type := type call; hit := hit call;
                   duration_ms := duration_ms call;
                   timestamp := timestamp call |} <> [])
        by (apply deque_append_not_nil; lia).
      destruct (deque_append 100 _ _); [contradiction|simpl; lia].
  - simpl. unfold deque_append. rewrite length_drop, length_app. simpl. lia.
Qed.

(** X12. After any sequence of [record_cache_operation] calls on a new
    collector, [cache_operations] holds the last 100 entries recorded, in
    order (all of them while there are fewer), and every call has added one
    sample to [cache_hit_rate], which holds 100 samples at most. *)
Theorem cache_windows_hold_last_100 (calls : list cache_operation) :
  let c := foldl (fun c call => recorded call c) empty_collector calls in
  cache_operations c = drop (List.length calls - 100) calls
  /\ List.length (cache_hit_rate c) = Nat.min (List.length calls) 100.
Proof.
  induction calls as [|call calls IH] using rev_ind; [split; reflexivity|].
  rewrite foldl_app. cbn [foldl]. cbv zeta in IH. destruct IH as [IHo IHr].
  split.
  - rewrite recorded_operations, IHo. apply deque_append_window.
  - rewrite recorded_hit_rate_length, IHr, length_app. simpl. lia.
Qed.

(** *** The hit rate seen through the timing helper *)

(** A block that leaves the collector alone. *)
Fixpoint quiet (b : block) : Prop :=
  match b with
  | Pass => True
  | RaiseFrom _ => True
  | CallHit k => forall r, quiet (k r)
  | OnCollector _ _ => False
  end.

Lemma run_block_quiet (b : block) :
  quiet b -> forall fr c, (run_block b fr c).2 = c.
Proof.
  induction b as [| e | k IH | f k IH]; simpl; intros Hq fr c.
  - reflexivity.
  - reflexivity.
  - apply IH, Hq.
  - contradiction.
Qed.

(** No hit among 1 to 50 operations is a rate of 0.0. *)
Lemma zero_hit_rate (n : nat) :
  1 <= n <= 50 ->
  (float_of_nat 0 / float_of_nat n * 100)%float = 0%float.
Proof.
  intros [H1 H2].
  do 51 (destruct n as [|n]; [first [exfalso; lia | vm_compute; reflexivity]|]).
  exfalso. lia.
Qed.

Definition all_misses (c : MetricsCollector) : Prop :=
  Forall (fun op => hit op = false) (cache_operations c)
  /\ Forall (fun rate => rate = 0%float) (cache_hit_rate c).

Lemma Forall_deque_append {A} (P : A -> Prop) (n : nat) (d : list A) (x : A) :
  Forall P d -> P x -> Forall P (deque_append n d x).
Proof.
  intros Hd Hx. unfold deque_append. apply Forall_drop.
  apply Forall_app. split; [exact Hd|]. constructor; [exact Hx|constructor].
Qed.

Lemma filter_hits_none (l : list cache_operation) :
  Forall (fun op => hit op = false) l ->
  filter (fun op => hit op = true) l = [].
Proof.
  induction 1 as [|op l Hop _ IH]; [reflexivity|].
  rewrite filter_cons_False by (rewrite Hop; discriminate). exact IH.
Qed.

Lemma record_miss_keeps_zero (op : string) (d : float) (now : Z)
    (c : MetricsCollector) :
  all_misses c -> all_misses (record_cache_operation op false d now c).
Proof.
  intros [Hops Hrates]. unfold record_cache_operation.
  set (entry := {| type := op; hit := false; duration_ms := d; timestamp := now |}).
  assert (Hops' : Forall (fun o => hit o = false)
                    (deque_append 100 (cache_operations c) entry))
    by (apply Forall_deque_append; [exact Hops|reflexivity]).
  destruct (drop _ _) as [|o rest] eqn:Hrecent; [split; assumption|].
  split; [exact Hops'|]. cbn [cache_hit_rate].
  apply Forall_deque_append; [exact Hrates|].
  assert (Hrecent_miss : Forall (fun o => hit o = false) (o :: rest))
    by (rewrite <- Hrecent; apply Forall_drop, Hops').
  rewrite (filter_hits_none _ Hrecent_miss).
  apply zero_hit_rate. split; [simpl; lia|].
  rewrite <- Hrecent, length_drop.
  unfold deque_append. rewrite length_drop, length_app. simpl. lia.
Qed.

(** One use of the timing helper: the operation type, the two clock
    readings, the time stamp and the block under it. *)
Record tracked := mkTracked {
  tracked_type : string;
  tracked_start : float;
  tracked_stop : float;
  tracked_utcnow : Z;
  tracked_block : block
}.

Definition track (c : MetricsCollector) (t : tracked) : MetricsCollector :=
  (track_cache_operation (tracked_type t) (tracked_start t) (tracked_stop t)
     (tracked_utcnow t) (tracked_block t) c).2.

(** X13. When every cache operation is recorded through
    [track_cache_operation], under blocks that do not write to the
    collector themselves, the hit rate never leaves zero: after any number
    of operations on a new collector, every entry of [cache_operations] is
    a miss and every sample of [cache_hit_rate] is 0.0, however often the
    blocks call the "hit" callback. *)
Theorem tracked_hit_rate_is_zero (uses : list tracked) :
  Forall (fun t => quiet (tracked_block t)) uses ->
  let c := foldl track empty_collector uses in
  Forall (fun op => hit op = false) (cache_operations c)
  /\ Forall (fun rate => rate = 0%float) (cache_hit_rate c).
Proof.
  intros Hquiet. cbv zeta.
  assert (Hgen : forall c, all_misses c -> all_misses (foldl track c uses)).
  { induction Hquiet as [|t uses Ht _ IH]; intros c Hc; [exact Hc|].
    simpl. apply IH. unfold track, track_cache_operation.
    pose proof (run_block_frame (tracked_block t)
      {| operation_type := tracked_type t; start_time := tracked_start t;
         hit_var := false |} c) as Hfr.
    pose proof (run_block_quiet (tracked_block t) Ht
      {| operation_type := tracked_type t; start_time := tracked_start t;
         hit_var := false |} c) as Hc'.
    destruct (run_block _ _ c) as [[outcome fr'] c']. simpl in *. subst.
    apply record_miss_keeps_zero. exact Hc. }
  apply Hgen. split; constructor.
Qed.

Lemma tracked_hit_rate_is_zero_witness :
  let uses := [mkTracked "get" 1%float 2%float 0
                 (CallHit (fun _ => CallHit (fun _ => Pass)))] in
  Forall (fun t => quiet (tracked_block t)) uses
  /\ cache_hit_rate (foldl track empty_collector uses) = [0%float].
Proof.
  intros uses.
  assert (Hq : Forall (fun t => quiet (tracked_block t)) uses).
  { constructor; [|constructor]. simpl. intros _ _. exact I. }
  split; [exact Hq|].
  pose proof (proj2 (tracked_hit_rate_is_zero uses Hq)) as Hz.
  cbv zeta in Hz.
  destruct (cache_hit_rate (foldl track empty_collector uses)) as [|r rs] eqn:Hr;
    [discriminate Hr|].
  assert (Hlen : List.length (r :: rs) = 1) by (rewrite <- Hr; reflexivity).
  destruct rs; [|discriminate Hlen].
  inversion Hz; subst. reflexivity.
Defined.

(** *** Request counters *)

Definition record_all (requests : list RequestMetrics.t) (c : RequestCollector)
  : RequestCollector :=
  foldl (fun c m => record_request m c) c requests.

Lemma increment_lookup (d : gmap string Z) (key k : string) :
  default 0%Z (increment d key !! k)
  = (default 0 (d !! k) + if decide (key = k) then 1 else 0)%Z.
Proof.
  unfold increment. destruct (decide (key = k)) as [->|Hne].
  - rewrite lookup_insert_eq. reflexivity.
  - rewrite lookup_insert_ne by exact Hne. lia.
Qed.

Lemma record_all_counts (requests : list RequestMetrics.t) (k : string) :
  forall c : RequestCollector,
    let c' := record_all requests c in
    let served := filter (fun m => endpoint_key_of m = k) requests in
    default 0%Z (request_counts c' !! k)
    = (default 0 (request_counts c !! k) + Z.of_nat (List.length served))%Z
    /\ default 0%Z (error_counts c' !! k)
       = (default 0 (error_counts c !! k)
          + Z.of_nat (List.length
                        (filter (fun m => (400 <= RequestMetrics.status_code m)%Z)
                                served)))%Z
    /\ max_history c' = max_history c.
Proof.
  induction requests as [|m requests IH]; intros c.
  - simpl. split; [lia|]. split; [lia|reflexivity].
  - cbn [record_all foldl]. fold (record_all requests (record_request m c)).
    cbv zeta in IH. destruct (IH (record_request m c)) as [Hr [He Hm]].
    rewrite Hr, He, Hm. cbn [record_request request_counts error_counts max_history].
    rewrite increment_lookup. rewrite filter_cons.
    destruct (decide (endpoint_key_of m = k)) as [Hk|Hk].
    + rewrite filter_cons.
      destruct (Z.leb_spec 400 (RequestMetrics.status_code m)) as [H4|H4].
      * rewrite increment_lookup, decide_True by exact Hk.
        rewrite (decide_True (P := (400 <= _)%Z)) by exact H4.
        simpl List.length. split; [lia|]. split; [lia|reflexivity].
      * rewrite (decide_False (P := (400 <= _)%Z)) by lia.
        simpl List.length. split; [lia|]. split; [lia|reflexivity].
    + destruct (Z.leb_spec 400 (RequestMetrics.status_code m)) as [H4|H4].
      * rewrite increment_lookup, decide_False by exact Hk.
        split; [lia|]. split; [lia|reflexivity].
      * split; [lia|]. split; [lia|reflexivity].
Qed.

Lemma record_all_history (n : nat) (requests : list RequestMetrics.t) :
  request_history (record_all requests (new_collector n))
  = drop (List.length requests - n) requests
  /\ max_history (record_all requests (new_collector n)) = n.
Proof.
  induction requests as [|m requests IH] using rev_ind; [split; reflexivity|].
  unfold record_all in *. rewrite foldl_app. cbn [foldl].
  destruct IH as [IHh IHm].
  cbn [record_request request_history max_history]. rewrite IHh, IHm.
  split; [apply deque_append_window|reflexivity].
Qed.

(** X14. After any sequence of [record_request] calls on a new collector, the
    request counter of an endpoint is the number of requests recorded for
    it and its error counter the number of those with a status of 400 or
    more, so the error counter never exceeds the request counter; the
    counters go on counting when [request_history], which keeps the last
    [max_history] requests, has dropped the older ones. *)
Theorem record_request_counters
    (n : nat) (requests : list RequestMetrics.t) (endpoint : string) :
  let c := record_all requests (new_collector n) in
  let served := filter (fun m => endpoint_key_of m = endpoint) requests in
  default 0%Z (request_counts c !! endpoint) = Z.of_nat (List.length served)
  /\ default 0%Z (error_counts c !! endpoint)
     = Z.of_nat (List.length
                   (filter (fun m => (400 <= RequestMetrics.status_code m)%Z)
                           served))
  /\ (default 0 (error_counts c !! endpoint)
      <= default 0 (request_counts c !! endpoint))%Z
  /\ request_history c = drop (List.length requests - n) requests.
Proof.
  intros c served.
  destruct (record_all_counts requests endpoint (new_collector n))
    as [Hr [He _]].
  fold c served in Hr, He. simpl in Hr, He.
  rewrite lookup_empty in Hr, He. simpl in Hr, He.
  split; [exact Hr|]. split; [exact He|]. split.
  - rewrite Hr, He. apply inj_le, length_filter.
  - apply record_all_history.
Qed.

(** *** The middleware *)

Section DispatchProperties.

Variable str_of_exception : exn -> string.
Variable format_2f : float -> string.

(** X15. [dispatch] registers the request as active before the application
    runs and removes it afterwards however the application ends; it counts
    the request for its endpoint, and as an error when the application
    raised (recorded with status 500) or answered with a status of 400 or
    more. What the application raised is raised to the caller; a response
    is returned with its status unchanged and the two headers set. *)
Theorem dispatch_counts_and_cleans_up
    (request : Request)
    (call_next : RequestCollector -> result Response * RequestCollector)
    (start stop : float) (utcnow1 utcnow2 : Z) (c : RequestCollector) :
  let key := str_int (request_id request) in
  let endpoint := request_method request ++ ":" ++ url_path request in
  let started :=
    with_active_requests c (<[key := utcnow1]> (active_requests c)) in
  let after := (dispatch str_of_exception format_2f request call_next
                  start stop utcnow1 utcnow2 c).2 in
  let returned := (dispatch str_of_exception format_2f request call_next
                     start stop utcnow1 utcnow2 c).1 in
  active_requests started !! key = Some utcnow1
  /\ active_requests after = delete key (active_requests (call_next started).2)
  /\ active_requests after !! key = None
  /\ default 0%Z (request_counts after !! endpoint)
     = (default 0 (request_counts (call_next started).2 !! endpoint) + 1)%Z
  /\ match (call_next started).1 with
     | Raise e =>
       returned = Raise e
       /\ default 0%Z (error_counts after !! endpoint)
          = (default 0 (error_counts (call_next started).2 !! endpoint) + 1)%Z
     | Ok r =>
       (exists r', returned = Ok r'
                   /\ response_status_code r' = response_status_code r
                   /\ headers r' !! "x-request-id" = Some key
                   /\ is_Some (headers r' !! "x-response-time"))
       /\ default 0%Z (error_counts after !! endpoint)
          = (default 0 (error_counts (call_next started).2 !! endpoint)
             + if (400 <=? response_status_code r)%Z then 1 else 0)%Z
     end.
Proof.
  intros key endpoint started after returned.
  unfold after, returned, dispatch. fold key. fold started.
  destruct (call_next started) as [outcome c2].
  split; [apply lookup_insert_eq|].
  destruct outcome as [r|e]; cbn [fst snd].
  - cbn [record_request with_active_requests active_requests request_counts
         error_counts RequestMetrics.status_code endpoint_key_of
         RequestMetrics.method RequestMetrics.path].
    fold endpoint.
    split; [reflexivity|]. split; [apply lookup_delete_eq|].
    split; [rewrite increment_lookup, decide_True by reflexivity; reflexivity|].
    split.
    + eexists. split; [reflexivity|]. split; [reflexivity|]. split.
      * apply lookup_insert_eq.
      * simpl. rewrite lookup_insert_ne by discriminate.
        rewrite lookup_insert_eq. eauto.
    + destruct (400 <=? response_status_code r)%Z.
      * rewrite increment_lookup, decide_True by reflexivity. reflexivity.
      * lia.
  - cbn [record_request with_active_requests active_requests request_counts
         error_counts RequestMetrics.status_code endpoint_key_of
         RequestMetrics.method RequestMetrics.path].
    fold endpoint.
    split; [reflexivity|]. split; [apply lookup_delete_eq|].
    split; [rewrite increment_lookup, decide_True by reflexivity; reflexivity|].
    split; [reflexivity|].
    change (400 <=? 500)%Z with true. cbn iota.
    rewrite increment_lookup, decide_True by reflexivity. reflexivity.
Qed.

End DispatchProperties.

End MonitoringMore.
